(** * Sum of squared differences of two RGBA8 images: the C prototypes

    A shallow embedding of the kernels of [prototypes/]:

    - [ssd_scalar]       (ssd_avx2.c, ssd_avx2_simple.c, ssd_avx2_v2.c: the
                          three copies are the same function),
    - [ssd_avx2]         (ssd_avx2.c, ssd_avx2_minimal.c, ssd_avx2_goat.c:
                          the three copies are the same function),
    - [ssd_avx2_simple]  (ssd_avx2_simple.c),
    - [ssd_avx2_v2]      (ssd_avx2_v2.c).

    Conventions of the embedding.

    - A C integer of width [w] is a [Z]; every arithmetic operation of the
      source is followed by the wrap-around of its C type ([int16], [int32],
      [int64] below).
    - A pixel buffer ([const uint8_t*]) is a [list byte]; a read outside the
      list has no defined result and makes the kernel return [None].
    - A [__m256i] register is the list of its 32 bytes, least significant
      first; the intrinsics view it as 16-bit or 32-bit lanes.
    - The kernels only ever hold integers in their [double]s; a [double] is
      modelled by the integer it holds, and every operation that produces a
      double rounds to a 53-bit significand ([Double.round]). *)

From Stdlib Require Import ZArith List Lia Bool.
From Stdlib.Strings Require Import Byte.
Import ListNotations.
Local Open Scope Z_scope.

(** ** Fixed-width integers *)

Module CInt.

(** Two's complement wrap-around to [w] bits, signed result. *)
Definition wrap (w : Z) (z : Z) : Z :=
  (z + 2 ^ (w - 1)) mod 2 ^ w - 2 ^ (w - 1).

Definition int16 : Z -> Z := wrap 16.
Definition int32 : Z -> Z := wrap 32.
Definition int64 : Z -> Z := wrap 64.

Definition INT_MAX : Z := 2 ^ 31 - 1.
Definition INT_MIN : Z := - 2 ^ 31.

End CInt.
Import CInt.

(** ** Doubles that hold integers *)

Module Double.

(** Round an integer to the nearest double (53-bit significand, ties to
    even).  Integers below [2^53] in magnitude are doubles already. *)
Definition round (z : Z) : Z :=
  let m := Z.abs z in
  if m <? 2 ^ 53 then z
  else
    let e := Z.log2 m - 52 in
    let q := m / 2 ^ e in
    let r := m mod 2 ^ e in
    let half := 2 ^ (e - 1) in
    let q' := if (half <? r) || ((r =? half) && Z.odd q) then q + 1 else q in
    Z.sgn z * (q' * 2 ^ e).

(** [(double) n] for an integer [n]. *)
Definition of_int (n : Z) : Z := round n.

(** [x + y] on doubles. *)
Definition add (x y : Z) : Z := round (x + y).

End Double.

(** ** Undefined behaviour as [None] *)

Definition bind {A B : Type} (m : option A) (k : A -> option B) : option B :=
  match m with
  | Some x => k x
  | None => None
  end.

Notation "x <- m ;; k" := (bind m (fun x => k))
  (at level 61, m at next level, right associativity).
Notation "' pat <- m ;; k" := (bind m (fun x => match x with pat => k end))
  (at level 61, pat pattern, m at next level, right associativity).

(** ** Pixel buffers *)

Definition buffer : Type := list byte.

(** The value of a [uint8_t]. *)
Definition u8 (b : byte) : Z := Z.of_N (Byte.to_N b).

(** [p[i]] for an [int] index [i]. *)
Definition load_u8 (p : buffer) (i : Z) : option Z :=
  if i <? 0 then None else option_map u8 (nth_error p (Z.to_nat i)).

(** [n] consecutive bytes from [&p[i]]. *)
Fixpoint load_bytes (p : buffer) (i : Z) (n : nat) : option (list Z) :=
  match n with
  | O => Some []
  | S n' =>
      x <- load_u8 p i ;;
      r <- load_bytes p (i + 1) n' ;;
      Some (x :: r)
  end.

(** ** Loops

    [for (; cond v; v += step) body] on an [int] counter [v], with the rest of
    the state in [s].  The result is the counter and state at exit.  [fuel]
    bounds the number of tests of [cond]; the kernels give each loop one more
    than its trip count, [for_loop_sum] shows that this is enough. *)

Fixpoint for_loop {S : Type} (fuel : nat) (cond : Z -> bool) (step : Z)
    (body : Z -> S -> option S) (v : Z) (s : S) : option (Z * S) :=
  match fuel with
  | O => None
  | Datatypes.S fuel' =>
      if cond v then
        s' <- body v s ;;
        for_loop fuel' cond step body (int32 (v + step)) s'
      else Some (v, s)
  end.

(** A loop whose bounds are constants of the source runs over the list of its
    counter values. *)
Definition for_each {S : Type} (vs : list Z) (body : Z -> S -> S) (s : S) : S :=
  fold_left (fun acc v => body v acc) vs s.

(** ** The scalar reference kernel *)

(** The loop body shared by [ssd_scalar] and by the remainder loops:
<<
    int32_t dr = (int32_t)a[i+0] - (int32_t)b[i+0];
    int32_t dg = (int32_t)a[i+1] - (int32_t)b[i+1];
    int32_t db = (int32_t)a[i+2] - (int32_t)b[i+2];
    ... dr*dr + dg*dg + db*db
>> *)
Definition rgb_sq_diff (a b : buffer) (i : Z) : option Z :=
  a0 <- load_u8 a (int32 (i + 0)) ;;
  b0 <- load_u8 b (int32 (i + 0)) ;;
  let dr := int32 (a0 - b0) in
  a1 <- load_u8 a (int32 (i + 1)) ;;
  b1 <- load_u8 b (int32 (i + 1)) ;;
  let dg := int32 (a1 - b1) in
  a2 <- load_u8 a (int32 (i + 2)) ;;
  b2 <- load_u8 b (int32 (i + 2)) ;;
  let db := int32 (a2 - b2) in
  Some (int32 (int32 (int32 (dr * dr) + int32 (dg * dg)) + int32 (db * db))).

Definition ssd_scalar (a b : buffer) (stride width height : Z) : option Z :=
  let sum := 0 in
  '(_, sum) <-
    for_loop (S (Z.to_nat height)) (fun y => y <? height) 1
      (fun y sum =>
         let row_start := int32 (y * stride) in
         '(_, sum) <-
           for_loop (S (Z.to_nat width)) (fun x => x <? width) 1
             (fun x sum =>
                let i := int32 (row_start + int32 (x * 4)) in
                d <- rgb_sq_diff a b i ;;
                Some (Double.add sum (Double.of_int d)))
             0 sum ;;
         Some sum)
      0 sum ;;
  Some sum.

(** ** The AVX2 intrinsics the kernels use *)

Module Avx2.

(** A register is the list of its bytes (each in [0, 255]), least
    significant first: 32 bytes for [__m256i], 16 for [__m128i]. *)
Definition m256i : Type := list Z.
Definition m128i : Type := list Z.

(** The signed 16-bit lanes of a register. *)
Fixpoint lanes16 (v : list Z) : list Z :=
  match v with
  | b0 :: b1 :: r => int16 (b0 + 256 * b1) :: lanes16 r
  | _ => []
  end.

(** The signed 32-bit lanes of a register. *)
Fixpoint lanes32 (v : list Z) : list Z :=
  match v with
  | b0 :: b1 :: b2 :: b3 :: r =>
      int32 (b0 + 256 * b1 + 65536 * b2 + 16777216 * b3) :: lanes32 r
  | _ => []
  end.

Definition bytes16 (z : Z) : list Z :=
  [z mod 256; (z / 256) mod 256].

Definition bytes32 (z : Z) : list Z :=
  [z mod 256; (z / 256) mod 256; (z / 65536) mod 256; (z / 16777216) mod 256].

(** The register whose 16-bit (32-bit) lanes are the given integers. *)
Definition pack16 (l : list Z) : list Z := flat_map bytes16 l.
Definition pack32 (l : list Z) : list Z := flat_map bytes32 l.

Fixpoint zip_with (f : Z -> Z -> Z) (l1 l2 : list Z) : list Z :=
  match l1, l2 with
  | x :: l1', y :: l2' => f x y :: zip_with f l1' l2'
  | _, _ => []
  end.

Fixpoint interleave (l1 l2 : list Z) : list Z :=
  match l1, l2 with
  | x :: l1', y :: l2' => x :: y :: interleave l1' l2'
  | _, _ => []
  end.

(** Products of signed 16-bit lanes, adjacent pairs added in 32 bits. *)
Fixpoint madd_pairs (x y : list Z) : list Z :=
  match x, y with
  | x0 :: x1 :: xr, y0 :: y1 :: yr =>
      int32 (x0 * y0 + x1 * y1) :: madd_pairs xr yr
  | _, _ => []
  end.

Definition _mm256_setzero_si256 : m256i := repeat 0 32.

(** Unaligned load of 32 bytes from [&p[i]]. *)
Definition _mm256_loadu_si256 (p : buffer) (i : Z) : option m256i :=
  load_bytes p i 32.

(** Interleave the low (high) 8 bytes of each 128-bit half of [a] and [b]. *)
Definition _mm256_unpacklo_epi8 (a b : m256i) : m256i :=
  interleave (firstn 8 a) (firstn 8 b)
    ++ interleave (firstn 8 (skipn 16 a)) (firstn 8 (skipn 16 b)).

Definition _mm256_unpackhi_epi8 (a b : m256i) : m256i :=
  interleave (firstn 8 (skipn 8 a)) (firstn 8 (skipn 8 b))
    ++ interleave (firstn 8 (skipn 24 a)) (firstn 8 (skipn 24 b)).

(** The low 128 bits. *)
Definition _mm256_castsi256_si128 (a : m256i) : m128i := firstn 16 a.

(** The 128-bit half selected by [imm8]. *)
Definition _mm256_extracti128_si256 (a : m256i) (imm8 : Z) : m128i :=
  if Z.odd imm8 then firstn 16 (skipn 16 a) else firstn 16 a.

(** Zero-extend 16 bytes to 16 lanes of 16 bits. *)
Definition _mm256_cvtepu8_epi16 (a : m128i) : m256i :=
  flat_map (fun x => [x; 0]) a.

Definition _mm256_sub_epi8 (a b : m256i) : m256i :=
  zip_with (fun x y => (x - y) mod 256) a b.

Definition _mm256_sub_epi16 (a b : m256i) : m256i :=
  pack16 (zip_with (fun x y => int16 (x - y)) (lanes16 a) (lanes16 b)).

(** Multiply the signed 16-bit lanes, add adjacent products into 32-bit
    lanes. *)
Definition _mm256_madd_epi16 (a b : m256i) : m256i :=
  pack32 (madd_pairs (lanes16 a) (lanes16 b)).

Definition _mm256_set1_epi32 (x : Z) : m256i := pack32 (repeat x 8).

Definition _mm256_add_epi32 (a b : m256i) : m256i :=
  pack32 (zip_with (fun x y => int32 (x + y)) (lanes32 a) (lanes32 b)).

(** [_mm256_storeu_si256] into a local [int32_t[8]], a local
    [uint8_t[32]]: the array that results. *)
Definition store_int32 (v : m256i) : list Z := lanes32 v.
Definition store_uint8 (v : m256i) : list Z := v.

End Avx2.
Import Avx2.

(** [arr[j]] on a local array (the stores above give it its full size). *)
Definition elt (arr : list Z) (j : Z) : Z := nth (Z.to_nat j) arr 0.

(** The remainder loop of [ssd_avx2] and [ssd_avx2_simple], on the
    [int64_t] accumulator:
<<
    for (; x < width; x++) { ...; total_sum += dr*dr + dg*dg + db*db; }
>> *)
Definition remainder_loop (a b : buffer) (row_start width : Z) (x total_sum : Z)
    : option (Z * Z) :=
  for_loop (S (Z.to_nat width)) (fun x => x <? width) 1
    (fun x total_sum =>
       let i := int32 (row_start + int32 (x * 4)) in
       d <- rgb_sq_diff a b i ;;
       Some (int64 (total_sum + d)))
    x total_sum.

(** ** ssd_avx2 (ssd_avx2.c, ssd_avx2_minimal.c, ssd_avx2_goat.c) *)

(** The body of the loop over whole blocks of eight pixels, from the two
    loads at [&a[i]], [&b[i]] to the last update of [total_sum]. *)
Definition ssd_avx2_block (a b : buffer) (i : Z) (total_sum : Z) : option Z :=
  va <- _mm256_loadu_si256 a i ;;
  vb <- _mm256_loadu_si256 b i ;;
  let va_lo := _mm256_unpacklo_epi8 va _mm256_setzero_si256 in
  let vb_lo := _mm256_unpacklo_epi8 vb _mm256_setzero_si256 in
  let va_hi := _mm256_unpackhi_epi8 va _mm256_setzero_si256 in
  let vb_hi := _mm256_unpackhi_epi8 vb _mm256_setzero_si256 in
  let diff_lo := _mm256_sub_epi16 va_lo vb_lo in
  let diff_hi := _mm256_sub_epi16 va_hi vb_hi in
  let sq_lo := _mm256_madd_epi16 diff_lo diff_lo in
  let sq_hi := _mm256_madd_epi16 diff_hi diff_hi in
  let sq_lo_arr := store_int32 sq_lo in
  let sq_hi_arr := store_int32 sq_hi in
  let total_sum :=
    for_each [0; 1; 2; 3; 4; 5; 6; 7]
      (fun j total_sum =>
         let total_sum := int64 (total_sum + elt sq_lo_arr j) in
         int64 (total_sum + elt sq_hi_arr j))
      total_sum in
  let a_bytes := store_uint8 va in
  let b_bytes := store_uint8 vb in
  let pixel_sum :=
    for_each [0; 1; 2; 3; 4; 5; 6; 7]
      (fun p pixel_sum =>
         let idx := int32 (p * 4) in
         let dr := int32 (elt a_bytes (int32 (idx + 0)) - elt b_bytes (int32 (idx + 0))) in
         let dg := int32 (elt a_bytes (int32 (idx + 1)) - elt b_bytes (int32 (idx + 1))) in
         let db := int32 (elt a_bytes (int32 (idx + 2)) - elt b_bytes (int32 (idx + 2))) in
         int32 (pixel_sum
                + int32 (int32 (int32 (dr * dr) + int32 (dg * dg)) + int32 (db * db))))
      0 in
  let total_sum :=
    int64 (total_sum
           - fold_left (fun s v => int32 (s + v))
               (map (elt sq_lo_arr) [1; 2; 3; 4; 5; 6; 7]
                  ++ map (elt sq_hi_arr) [0; 1; 2; 3; 4; 5; 6; 7])
               (elt sq_lo_arr 0)) in
  Some (int64 (total_sum + pixel_sum)).

Definition ssd_avx2 (a b : buffer) (stride width height : Z) : option Z :=
  let total_sum := 0 in
  '(_, total_sum) <-
    for_loop (S (Z.to_nat height)) (fun y => y <? height) 1
      (fun y total_sum =>
         let row_start := int32 (y * stride) in
         let x := 0 in
         let simd_width := int32 (int32 (width ÷ 8) * 8) in
         '(x, total_sum) <-
           for_loop (S (Z.to_nat width)) (fun x => x <? simd_width) 8
             (fun x total_sum =>
                let i := int32 (row_start + int32 (x * 4)) in
                ssd_avx2_block a b i total_sum)
             x total_sum ;;
         '(_, total_sum) <- remainder_loop a b row_start width x total_sum ;;
         Some total_sum)
      0 total_sum ;;
  Some (Double.of_int total_sum).

(** ** ssd_avx2_simple (ssd_avx2_simple.c) *)

(** The body of the loop over whole blocks: the sums of adjacent squares of
    all four channels, minus the squares of the alpha differences read back
    from [a] and [b]. *)
Definition ssd_avx2_simple_block (a b : buffer) (i : Z) (total_sum : Z)
    : option Z :=
  va <- _mm256_loadu_si256 a i ;;
  vb <- _mm256_loadu_si256 b i ;;
  let vdiff := _mm256_sub_epi8 va vb in
  let va_lo := _mm256_castsi256_si128 va in
  let va_hi := _mm256_extracti128_si256 va 1 in
  let vb_lo := _mm256_castsi256_si128 vb in
  let vb_hi := _mm256_extracti128_si256 vb 1 in
  let va_lo_16 := _mm256_cvtepu8_epi16 va_lo in
  let va_hi_16 := _mm256_cvtepu8_epi16 va_hi in
  let vb_lo_16 := _mm256_cvtepu8_epi16 vb_lo in
  let vb_hi_16 := _mm256_cvtepu8_epi16 vb_hi in
  let diff_lo := _mm256_sub_epi16 va_lo_16 vb_lo_16 in
  let diff_hi := _mm256_sub_epi16 va_hi_16 vb_hi_16 in
  let sq_lo := _mm256_madd_epi16 diff_lo diff_lo in
  let sq_hi := _mm256_madd_epi16 diff_hi diff_hi in
  let sq_lo_arr := store_int32 sq_lo in
  let sq_hi_arr := store_int32 sq_hi in
  let pixel_sum := 0 in
  let pixel_sum :=
    for_each [0; 2; 4; 6]
      (fun p pixel_sum =>
         let pixel_sum := int32 (pixel_sum + elt sq_lo_arr p) in
         int32 (pixel_sum + elt sq_lo_arr (int32 (p + 1))))
      pixel_sum in
  let pixel_sum :=
    for_each [0; 2; 4; 6]
      (fun p pixel_sum =>
         let pixel_sum := int32 (pixel_sum + elt sq_hi_arr p) in
         int32 (pixel_sum + elt sq_hi_arr (int32 (p + 1))))
      pixel_sum in
  pixel_sum <-
    fold_left
      (fun acc p =>
         pixel_sum <- acc ;;
         let idx := int32 (int32 (i + int32 (p * 4)) + 3) in
         xa <- load_u8 a idx ;;
         xb <- load_u8 b idx ;;
         let da := int32 (xa - xb) in
         Some (int32 (pixel_sum - int32 (da * da))))
      [0; 1; 2; 3; 4; 5; 6; 7] (Some pixel_sum) ;;
  Some (int64 (total_sum + pixel_sum)).

Definition ssd_avx2_simple (a b : buffer) (stride width height : Z) : option Z :=
  let total_sum := 0 in
  '(_, total_sum) <-
    for_loop (S (Z.to_nat height)) (fun y => y <? height) 1
      (fun y total_sum =>
         let row_start := int32 (y * stride) in
         let x := 0 in
         '(x, total_sum) <-
           for_loop (S (Z.to_nat width)) (fun x => x <=? int32 (width - 8)) 8
             (fun x total_sum =>
                let i := int32 (row_start + int32 (x * 4)) in
                ssd_avx2_simple_block a b i total_sum)
             x total_sum ;;
         '(_, total_sum) <- remainder_loop a b row_start width x total_sum ;;
         Some total_sum)
      0 total_sum ;;
  Some (Double.of_int total_sum).

(** ** ssd_avx2_v2 (ssd_avx2_v2.c) *)

(** The body of the loop over whole blocks: the even 32-bit lanes
    ([R*R + G*G]) plus the squares of the blue differences read back from [a]
    and [b]; the sum is broadcast and added to [acc]. *)
Definition ssd_avx2_v2_block (a b : buffer) (i : Z) (acc : m256i)
    : option m256i :=
  va <- _mm256_loadu_si256 a i ;;
  vb <- _mm256_loadu_si256 b i ;;
  let va_lo := _mm256_cvtepu8_epi16 (_mm256_castsi256_si128 va) in
  let vb_lo := _mm256_cvtepu8_epi16 (_mm256_castsi256_si128 vb) in
  let va_hi := _mm256_cvtepu8_epi16 (_mm256_extracti128_si256 va 1) in
  let vb_hi := _mm256_cvtepu8_epi16 (_mm256_extracti128_si256 vb 1) in
  let diff_lo := _mm256_sub_epi16 va_lo vb_lo in
  let diff_hi := _mm256_sub_epi16 va_hi vb_hi in
  let sq_lo := _mm256_madd_epi16 diff_lo diff_lo in
  let sq_hi := _mm256_madd_epi16 diff_hi diff_hi in
  let sq_lo_arr := store_int32 sq_lo in
  let sq_hi_arr := store_int32 sq_hi in
  let pixel_sum := 0 in
  let pixel_sum :=
    for_each [0; 1; 2; 3]
      (fun p pixel_sum =>
         let pixel_sum := int32 (pixel_sum + elt sq_lo_arr (int32 (p * 2))) in
         int32 (pixel_sum + elt sq_hi_arr (int32 (p * 2))))
      pixel_sum in
  pixel_sum <-
    fold_left
      (fun acc p =>
         pixel_sum <- acc ;;
         let base := int32 (p * 4) in
         xa <- load_u8 a (int32 (int32 (i + base) + 2)) ;;
         xb <- load_u8 b (int32 (int32 (i + base) + 2)) ;;
         let db := int32 (xa - xb) in
         Some (int32 (pixel_sum + int32 (db * db))))
      [0; 1; 2; 3; 4; 5; 6; 7] (Some pixel_sum) ;;
  let vsum := _mm256_set1_epi32 pixel_sum in
  Some (_mm256_add_epi32 acc vsum).

Definition ssd_avx2_v2 (a b : buffer) (stride width height : Z) : option Z :=
  let acc := _mm256_setzero_si256 in
  '(_, acc) <-
    for_loop (S (Z.to_nat height)) (fun y => y <? height) 1
      (fun y acc =>
         let row_start := int32 (y * stride) in
         let x := 0 in
         '(x, acc) <-
           for_loop (S (Z.to_nat width)) (fun x => x <=? int32 (width - 8)) 8
             (fun x acc =>
                let i := int32 (row_start + int32 (x * 4)) in
                ssd_avx2_v2_block a b i acc)
             x acc ;;
         '(_, acc) <-
           for_loop (S (Z.to_nat width)) (fun x => x <? width) 1
             (fun x acc =>
                let i := int32 (row_start + int32 (x * 4)) in
                d <- rgb_sq_diff a b i ;;
                let vsum := _mm256_set1_epi32 d in
                Some (_mm256_add_epi32 acc vsum))
             x acc ;;
         Some acc)
      0 acc ;;
  let acc_arr := store_int32 acc in
  let total := 0 in
  let total :=
    for_each [0; 1; 2; 3; 4; 5; 6; 7]
      (fun i total => int64 (total + elt acc_arr i))
      total in
  Some (Double.of_int total).

(** ** The scenario of one full lane: 8x1, A all zero, B all (10,20,30,255) *)

Definition lane_A : buffer := repeat x00 32.
Definition lane_B : buffer :=
  concat (repeat [x0a; x14; x1e; xff] 8).

(** ** What the contract promises: the sum over the pixels

    This definition follows the words of the contract, not the code: the
    mathematical sum, over the [width * height] pixels, of the squared
    differences of the R, G and B samples; pixel [x] of row [y] starts at byte
    [y * stride + x * 4]. *)

(** The sample at byte offset [i] of a buffer. *)
Definition byte_at (p : buffer) (i : Z) : Z := u8 (nth (Z.to_nat i) p x00).

Definition pixel_ssd (a b : buffer) (off : Z) : Z :=
  let dr := byte_at a (off + 0) - byte_at b (off + 0) in
  let dg := byte_at a (off + 1) - byte_at b (off + 1) in
  let db := byte_at a (off + 2) - byte_at b (off + 2) in
  dr * dr + dg * dg + db * db.

(** [f 0 + f 1 + ... + f (n-1)]. *)
Fixpoint sum_below (n : nat) (f : Z -> Z) : Z :=
  match n with
  | O => 0
  | S n' => sum_below n' f + f (Z.of_nat n')
  end.

Definition row_ssd (a b : buffer) (stride width : Z) (y : Z) : Z :=
  sum_below (Z.to_nat width) (fun x => pixel_ssd a b (y * stride + x * 4)).

Definition ssd_spec (a b : buffer) (stride width height : Z) : Z :=
  sum_below (Z.to_nat height) (row_ssd a b stride width).

(** ** Valid inputs

    The contract of the kernels, in the words of their documentation:
    positive [width] and [height], rows of at least [width * 4] bytes, buffers
    of at least [stride * height] bytes. *)

Record kernel_contract (a b : buffer) (stride width height : Z) : Prop := {
  contract_width : 0 < width;
  contract_height : 0 < height;
  contract_stride : width * 4 <= stride;
  contract_a : stride * height <= Z.of_nat (length a);
  contract_b : stride * height <= Z.of_nat (length b)
}.

(** The kernels compute every byte offset in [int].  The largest index the
    pixel loops compute ([i + 2], the byte offset of the blue sample of the
    last pixel of the last row) is an [int] value. *)
Definition rgb_offsets_fit (stride width height : Z) : Prop :=
  (height - 1) * stride + width * 4 - 2 <= INT_MAX.

(** The images whose size is an [int] value, as the [main] of each prototype
    computes it (the [int] product [stride * height]): they meet the contract
    and all their offsets are [int]s ([valid_input_fits] below). *)
Record valid_input (a b : buffer) (stride width height : Z) : Prop := {
  width_pos : 0 < width;
  height_pos : 0 < height;
  stride_rows : width * 4 <= stride;
  size_a : stride * height <= Z.of_nat (length a);
  size_b : stride * height <= Z.of_nat (length b);
  size_int : stride * height <= INT_MAX
}.

(** What the loops of the kernels need: [height] may be zero (a call on an
    empty shard of rows), [width] is an [int], and so is the largest index
    the pixel loops compute, the byte offset of the blue sample of the last
    pixel; that pixel's alpha sample and the padding of the last row may lie
    beyond [INT_MAX]. *)
Record in_contract (a b : buffer) (stride width height : Z) : Prop := {
  width_positive : 0 < width;
  width_int : width <= INT_MAX;
  height_nonneg : 0 <= height;
  stride_ok : width * 4 <= stride;
  fits_a : stride * height <= Z.of_nat (length a);
  fits_b : stride * height <= Z.of_nat (length b);
  fits_int : (height - 1) * stride + width * 4 - 2 <= INT_MAX
}.

(** [ssd_avx2_simple] reads the alpha samples of a block of eight pixels
    back from the buffers, each at an [int] index ([int idx = i + p*4 + 3]).
    When [width] is a multiple of 8 the last pixel of the image is in a block,
    and the offset of its alpha sample has to be an [int] as well. *)
Definition block_offsets_fit (stride width height : Z) : Prop :=
  width mod 8 = 0 -> (height - 1) * stride + width * 4 - 1 <= INT_MAX.

(** * Proofs *)

(** ** Wrap-around *)

Lemma int16_small z : -32768 <= z <= 32767 -> int16 z = z.
Proof. unfold int16, wrap. intros. rewrite Z.mod_small; lia. Qed.

Lemma int32_small z : -2147483648 <= z <= 2147483647 -> int32 z = z.
Proof. unfold int32, wrap. intros. rewrite Z.mod_small; lia. Qed.

Lemma int64_small z :
  -9223372036854775808 <= z <= 9223372036854775807 -> int64 z = z.
Proof. unfold int64, wrap. intros. rewrite Z.mod_small; lia. Qed.

Lemma wrap_add_l w x y : wrap w (wrap w x + y) = wrap w (x + y).
Proof.
  unfold wrap. f_equal.
  replace ((x + 2 ^ (w - 1)) mod 2 ^ w - 2 ^ (w - 1) + y + 2 ^ (w - 1))
    with ((x + 2 ^ (w - 1)) mod 2 ^ w + y) by ring.
  rewrite Zplus_mod_idemp_l. f_equal. ring.
Qed.

Lemma wrap_add_r w x y : wrap w (x + wrap w y) = wrap w (x + y).
Proof. rewrite (Z.add_comm x), wrap_add_l. f_equal. ring. Qed.

(** ** Doubles *)

Lemma round_small z :
  -9007199254740992 < z < 9007199254740992 -> Double.round z = z.
Proof.
  intros H. unfold Double.round.
  change (2 ^ 53) with 9007199254740992.
  destruct (Z.abs z <? 9007199254740992) eqn:E; [reflexivity|].
  apply Z.ltb_ge in E. lia.
Qed.

(** ** Reads *)

Lemma u8_range x : 0 <= u8 x <= 255.
Proof.
  unfold u8. pose proof (Byte.to_N_bounded x) as H.
  lia.
Qed.

Lemma byte_at_range p i : 0 <= byte_at p i <= 255.
Proof. apply u8_range. Qed.

Lemma load_u8_in p i :
  0 <= i < Z.of_nat (length p) -> load_u8 p i = Some (byte_at p i).
Proof.
  intros H. unfold load_u8, byte_at.
  destruct (i <? 0) eqn:E; [apply Z.ltb_lt in E; lia|].
  destruct (nth_error p (Z.to_nat i)) eqn:N.
  - simpl. f_equal. f_equal. symmetry. now apply nth_error_nth.
  - apply nth_error_None in N. lia.
Qed.

Lemma load_bytes_in p n : forall i,
  0 <= i -> i + Z.of_nat n <= Z.of_nat (length p) ->
  load_bytes p i n
  = Some (map (fun k => byte_at p (i + Z.of_nat k)) (seq 0 n)).
Proof.
  induction n as [|n IH]; intros i Hi Hn; [reflexivity|].
  cbn [load_bytes]. rewrite load_u8_in by lia. cbn [bind].
  rewrite IH by lia. cbn [bind seq map]. f_equal. f_equal.
  - f_equal. lia.
  - rewrite <- seq_shift, map_map. apply map_ext. intros k. f_equal. lia.
Qed.

(** ** Sums *)

Lemma sum_below_ext n f g :
  (forall k, 0 <= k < Z.of_nat n -> f k = g k) -> sum_below n f = sum_below n g.
Proof.
  induction n as [|n IH]; intros H; [reflexivity|].
  cbn [sum_below]. rewrite IH, H; [reflexivity|lia|]. intros k Hk. apply H. lia.
Qed.

Lemma sum_below_front n f :
  sum_below (S n) f = f 0 + sum_below n (fun k => f (k + 1)).
Proof.
  induction n as [|n IH]; [cbn; ring|].
  change (sum_below (S (S n)) f) with (sum_below (S n) f + f (Z.of_nat (S n))).
  rewrite IH. cbn [sum_below].
  replace (Z.of_nat (S n)) with (Z.of_nat n + 1) by lia. ring.
Qed.

Lemma sum_below_bounds n f M :
  (forall k, 0 <= k < Z.of_nat n -> 0 <= f k <= M) ->
  0 <= sum_below n f <= Z.of_nat n * M.
Proof.
  induction n as [|n IH]; intros H; [cbn; lia|].
  cbn [sum_below].
  assert (0 <= f (Z.of_nat n) <= M) by (apply H; lia).
  assert (0 <= sum_below n f <= Z.of_nat n * M) by (apply IH; intros; apply H; lia).
  lia.
Qed.

Lemma sum_below_app n m f :
  sum_below (n + m) f
  = sum_below n f + sum_below m (fun k => f (Z.of_nat n + k)).
Proof.
  induction m as [|m IH]; [rewrite Nat.add_0_r; cbn; ring|].
  rewrite Nat.add_succ_r. cbn [sum_below]. rewrite IH.
  replace (Z.of_nat (n + m)) with (Z.of_nat n + Z.of_nat m) by lia. ring.
Qed.

Lemma sum_below_nonneg n f :
  (forall k, 0 <= k < Z.of_nat n -> 0 <= f k) -> 0 <= sum_below n f.
Proof.
  induction n as [|n IH]; intros Hf; [cbn; lia|].
  cbn [sum_below].
  assert (0 <= f (Z.of_nat n)) by (apply Hf; lia).
  assert (0 <= sum_below n f) by (apply IH; intros; apply Hf; lia).
  lia.
Qed.

Lemma sum_below_zero n f :
  (forall k, 0 <= k < Z.of_nat n -> 0 <= f k) ->
  sum_below n f = 0 <-> (forall k, 0 <= k < Z.of_nat n -> f k = 0).
Proof.
  induction n as [|n IH]; intros Hf.
  - cbn. split; [intros _ k Hk; lia|reflexivity].
  - cbn [sum_below].
    assert (Hn : forall k, 0 <= k < Z.of_nat n -> 0 <= f k)
      by (intros; apply Hf; lia).
    assert (0 <= f (Z.of_nat n)) by (apply Hf; lia).
    pose proof (sum_below_nonneg n f Hn).
    split.
    + intros E k Hk. destruct (Z.eq_dec k (Z.of_nat n)) as [->|Hne]; [lia|].
      apply IH; [exact Hn|lia|lia].
    + intros E. rewrite (proj2 (IH Hn)), E by (try lia; intros; apply E; lia).
      reflexivity.
Qed.

(** ** Counted loops *)

Lemma for_loop_sum {St : Type} (repr : Z -> St) (body : Z -> St -> option St)
    (cond : Z -> bool) (step M B : Z) :
  0 < step ->
  forall (n fuel : nat) (f : Z -> Z) (v t : Z),
    (forall k, 0 <= k < Z.of_nat n -> cond (v + k * step) = true) ->
    cond (v + Z.of_nat n * step) = false ->
    (forall k t, 0 <= k < Z.of_nat n -> 0 <= t -> t + M <= B ->
       body (v + k * step) (repr t) = Some (repr (t + f k))) ->
    (forall k, 0 <= k < Z.of_nat n -> 0 <= f k <= M) ->
    INT_MIN <= v -> v + Z.of_nat n * step <= INT_MAX ->
    0 <= t -> t + Z.of_nat n * M <= B ->
    (n < fuel)%nat ->
    for_loop fuel cond step body v (repr t)
    = Some (v + Z.of_nat n * step, repr (t + sum_below n f)).
Proof.
  intros Hstep. unfold INT_MIN, INT_MAX.
  induction n as [|n IH]; intros fuel f v t Hc Hend Hb Hf Hlo Hhi Ht HB Hfuel.
  - destruct fuel as [|fuel]; [lia|]. cbn [for_loop].
    replace (v + Z.of_nat 0 * step) with v in * by lia.
    rewrite Hend. cbn [sum_below]. do 3 f_equal. lia.
  - destruct fuel as [|fuel]; [lia|]. cbn [for_loop].
    pose proof (Hc 0 ltac:(lia)) as Hc0. pose proof (Hf 0 ltac:(lia)) as Hf0.
    pose proof (Hb 0 t ltac:(lia) Ht ltac:(nia)) as Hb0.
    replace (v + 0 * step) with v in * by lia.
    rewrite Hc0, Hb0. cbn [bind].
    rewrite int32_small by nia.
    rewrite (IH fuel (fun k => f (k + 1)) (v + step) (t + f 0)).
    + rewrite sum_below_front. do 2 f_equal; [lia|f_equal; ring].
    + intros k Hk. replace (v + step + k * step) with (v + (k + 1) * step) by ring.
      apply Hc. lia.
    + replace (v + step + Z.of_nat n * step)
        with (v + Z.of_nat (S n) * step) by lia.
      exact Hend.
    + intros k t' Hk Ht' HM.
      replace (v + step + k * step) with (v + (k + 1) * step) by ring.
      apply Hb; lia.
    + intros k Hk. apply Hf. lia.
    + lia.
    + lia.
    + lia.
    + nia.
    + lia.
Qed.

(** ** The scalar loop body *)

Lemma sq_byte_diff x y :
  0 <= x <= 255 -> 0 <= y <= 255 -> 0 <= (x - y) * (x - y) <= 65025.
Proof.
  intros. pose proof (Z.square_nonneg (x - y)).
  assert (0 <= (255 - (x - y)) * (255 + (x - y)))
    by (apply Z.mul_nonneg_nonneg; lia).
  lia.
Qed.

Lemma pixel_ssd_range a b off : 0 <= pixel_ssd a b off <= 195075.
Proof.
  unfold pixel_ssd.
  pose proof (sq_byte_diff _ _ (byte_at_range a (off + 0)) (byte_at_range b (off + 0))).
  pose proof (sq_byte_diff _ _ (byte_at_range a (off + 1)) (byte_at_range b (off + 1))).
  pose proof (sq_byte_diff _ _ (byte_at_range a (off + 2)) (byte_at_range b (off + 2))).
  cbv zeta. lia.
Qed.

Lemma rgb_sq_diff_in a b i :
  0 <= i -> i + 2 < Z.of_nat (length a) -> i + 2 < Z.of_nat (length b) ->
  i + 2 <= INT_MAX ->
  rgb_sq_diff a b i = Some (pixel_ssd a b i).
Proof.
  unfold INT_MAX. intros Hi Ha Hb Hm. unfold rgb_sq_diff, pixel_ssd.
  rewrite !(int32_small (i + _)) by lia.
  rewrite !load_u8_in by lia. cbn [bind]. cbv zeta.
  pose proof (byte_at_range a (i + 0)). pose proof (byte_at_range b (i + 0)).
  pose proof (byte_at_range a (i + 1)). pose proof (byte_at_range b (i + 1)).
  pose proof (byte_at_range a (i + 2)). pose proof (byte_at_range b (i + 2)).
  rewrite !(int32_small (_ - _)) by lia.
  pose proof (sq_byte_diff (byte_at a (i + 0)) (byte_at b (i + 0))).
  pose proof (sq_byte_diff (byte_at a (i + 1)) (byte_at b (i + 1))).
  pose proof (sq_byte_diff (byte_at a (i + 2)) (byte_at b (i + 2))).
  rewrite !(int32_small (_ * _)) by lia.
  rewrite (int32_small (_ * _ + _ * _)) by lia.
  rewrite int32_small by lia. reflexivity.
Qed.

Lemma for_loop_acc (body : Z -> Z -> option Z) (cond : Z -> bool)
    (step M B : Z) (n fuel : nat) (f : Z -> Z) (v t : Z) :
  0 < step ->
  (forall k, 0 <= k < Z.of_nat n -> cond (v + k * step) = true) ->
  cond (v + Z.of_nat n * step) = false ->
  (forall k t, 0 <= k < Z.of_nat n -> 0 <= t -> t + M <= B ->
     body (v + k * step) t = Some (t + f k)) ->
  (forall k, 0 <= k < Z.of_nat n -> 0 <= f k <= M) ->
  INT_MIN <= v -> v + Z.of_nat n * step <= INT_MAX ->
  0 <= t -> t + Z.of_nat n * M <= B ->
  (n < fuel)%nat ->
  for_loop fuel cond step body v t
  = Some (v + Z.of_nat n * step, t + sum_below n f).
Proof.
  intros Hs. apply (for_loop_sum (fun t => t) body cond step M B Hs n fuel f v t).
Qed.

(** A loop whose body has no result at its iteration [n] has no result. *)
Lemma for_loop_stuck {St : Type} (cond : Z -> bool) (step : Z)
    (body : Z -> St -> option St) :
  0 < step ->
  forall (n fuel : nat) (v : Z) (s : St),
    (forall k, 0 <= k <= Z.of_nat n -> cond (v + k * step) = true) ->
    (forall s, body (v + Z.of_nat n * step) s = None) ->
    INT_MIN <= v -> v + Z.of_nat n * step <= INT_MAX ->
    for_loop fuel cond step body v s = None.
Proof.
  unfold INT_MIN, INT_MAX. intros Hstep.
  induction n as [|n IH]; intros fuel v s Hc Hb Hlo Hhi;
    (destruct fuel as [|fuel]; [reflexivity|]); cbn [for_loop].
  - pose proof (Hc 0 ltac:(lia)) as C. pose proof (Hb s) as B.
    replace (v + 0 * step) with v in C by lia.
    replace (v + Z.of_nat 0 * step) with v in B by lia.
    rewrite C, B. reflexivity.
  - pose proof (Hc 0 ltac:(lia)) as C.
    replace (v + 0 * step) with v in C by lia. rewrite C.
    destruct (body v s) as [s'|]; [cbn [bind]|reflexivity].
    rewrite int32_small by nia.
    apply IH.
    + intros k Hk. replace (v + step + k * step) with (v + (k + 1) * step)
        by ring.
      apply Hc. lia.
    + intros s0. replace (v + step + Z.of_nat n * step)
        with (v + Z.of_nat (S n) * step) by lia.
      apply Hb.
    + lia.
    + lia.
Qed.

(** ** Offsets of a valid geometry *)

Section Geometry.

Variables (a b : buffer) (stride width height : Z).
Hypothesis contract : in_contract a b stride width height.

Lemma offset_in_image y x c :
  0 <= y < height -> 0 <= x < width -> 0 <= c < 4 ->
  0 <= y * stride + x * 4 + c < stride * height
  /\ 0 <= y * stride /\ y * stride + x * 4 + 2 <= 2147483647.
Proof.
  destruct contract. unfold INT_MAX in *. intros Hy Hx Hc.
  assert (0 <= y * stride) by (apply Z.mul_nonneg_nonneg; lia).
  assert (y * stride <= (height - 1) * stride)
    by (apply Z.mul_le_mono_nonneg_r; lia).
  lia.
Qed.

(** The number of rows and the number of samples are [int] values too. *)
Lemma height_int : height <= 2147483647 /\ width * 4 * height <= 2147483649.
Proof.
  destruct contract. unfold INT_MAX in *.
  destruct (Z.eq_dec height 0) as [->|Hne]; [lia|].
  assert ((height - 1) * 4 <= (height - 1) * stride)
    by (apply Z.mul_le_mono_nonneg_l; lia).
  assert ((height - 1) * (width * 4) <= (height - 1) * stride)
    by (apply Z.mul_le_mono_nonneg_l; lia).
  lia.
Qed.

Lemma pixels_bound : height * (width * 195075) <= 140737488355328.
Proof.
  destruct contract. pose proof height_int as [_ ?]. unfold INT_MAX in *.
  assert (0 <= width * height) by (apply Z.mul_nonneg_nonneg; lia).
  lia.
Qed.

Lemma row_ssd_range y : 0 <= row_ssd a b stride width y <= width * 195075.
Proof.
  destruct contract. unfold row_ssd.
  pose proof (sum_below_bounds (Z.to_nat width)
                (fun x => pixel_ssd a b (y * stride + x * 4)) 195075
                (fun k _ => pixel_ssd_range a b _)).
  lia.
Qed.

Lemma ssd_spec_range :
  0 <= ssd_spec a b stride width height <= 195075 * width * height.
Proof.
  destruct contract. unfold ssd_spec.
  pose proof (sum_below_bounds (Z.to_nat height) (row_ssd a b stride width)
                (width * 195075) (fun k _ => row_ssd_range k)) as H.
  rewrite Z2Nat.id in H by lia. lia.
Qed.

(** The scalar loop over the pixels [x0 .. width-1] of row [y], on a
    [double] accumulator. *)
Lemma scalar_row y sum :
  0 <= y < height -> 0 <= sum -> sum + width * 195075 <= 2 ^ 52 ->
  for_loop (S (Z.to_nat width)) (fun x => x <? width) 1
    (fun x sum =>
       let i := int32 (int32 (y * stride) + int32 (x * 4)) in
       d <- rgb_sq_diff a b i ;;
       Some (Double.add sum (Double.of_int d)))
    0 sum
  = Some (width, sum + row_ssd a b stride width y).
Proof.
  change (2 ^ 52) with 4503599627370496.
  intros Hy Hs Hb. pose proof contract as [? ? ? ? ? ? ?]. unfold INT_MAX in *.
  rewrite (for_loop_acc _ _ 1 195075 4503599627370496 (Z.to_nat width) _
             (fun x => pixel_ssd a b (y * stride + x * 4)));
    unfold INT_MIN, INT_MAX; try lia.
  - unfold row_ssd. do 2 f_equal. lia.
  - apply Z.ltb_ge. lia.
  - intros k t Hk Ht HB. cbv zeta.
    pose proof (offset_in_image y k 0 ltac:(lia) ltac:(lia) ltac:(lia)).
    pose proof (offset_in_image y k 2 ltac:(lia) ltac:(lia) ltac:(lia)).
    assert (0 <= y * stride) by (apply Z.mul_nonneg_nonneg; lia).
    rewrite (int32_small (y * stride)) by lia.
    rewrite (int32_small (_ * 4)) by lia.
    rewrite int32_small by lia.
    replace (y * stride + (0 + k * 1) * 4) with (y * stride + k * 4) by lia.
    rewrite rgb_sq_diff_in by (unfold INT_MAX; lia). cbn [bind].
    pose proof (pixel_ssd_range a b (y * stride + k * 4)).
    unfold Double.add, Double.of_int.
    rewrite (round_small (pixel_ssd _ _ _)) by lia.
    rewrite round_small by lia. reflexivity.
  - intros k Hk. apply pixel_ssd_range.
Qed.

Theorem ssd_scalar_correct :
  ssd_scalar a b stride width height
  = Some (ssd_spec a b stride width height).
Proof.
  pose proof contract as [? ? ? ? ? ? ?]. pose proof pixels_bound as HP.
  unfold ssd_scalar. cbv zeta.
  rewrite (for_loop_acc _ _ 1 (width * 195075) 4503599627370496
             (Z.to_nat height) _ (row_ssd a b stride width));
    unfold INT_MIN, INT_MAX in *; try lia.
  - reflexivity.
  - apply Z.ltb_ge. lia.
  - intros k t Hk Ht HB.
    replace (0 + k * 1) with k by lia.
    rewrite scalar_row by (try change (2 ^ 52) with 4503599627370496; lia).
    reflexivity.
  - intros k Hk. apply row_ssd_range.
Qed.

End Geometry.

(** ** Lanes *)

Definition is_byte (x : Z) : Prop := 0 <= x <= 255.

Lemma pair_induction (P : list Z -> Prop) :
  P [] -> (forall x, P [x]) -> (forall x y l, P l -> P (x :: y :: l)) ->
  forall l, P l.
Proof.
  intros H0 H1 H2.
  assert (H : forall l, P l /\ forall x, P (x :: l)).
  { induction l as [|y l [IHl IHx]]; split; auto. }
  intros l. apply H.
Qed.

Lemma int16_bytes z : int16 (z mod 256 + 256 * ((z / 256) mod 256)) = int16 z.
Proof.
  unfold int16, wrap. f_equal.
  change (2 ^ (16 - 1)) with 32768. change (2 ^ 16) with 65536.
  rewrite <- (Z.rem_mul_r z 256 256) by lia.
  apply Zplus_mod_idemp_l.
Qed.

Lemma int32_bytes z :
  int32 (z mod 256 + 256 * ((z / 256) mod 256) + 65536 * ((z / 65536) mod 256)
         + 16777216 * ((z / 16777216) mod 256))
  = int32 z.
Proof.
  unfold int32, wrap. f_equal.
  change (2 ^ (32 - 1)) with 2147483648. change (2 ^ 32) with 4294967296.
  replace (z mod 256 + 256 * ((z / 256) mod 256) + 65536 * ((z / 65536) mod 256)
           + 16777216 * ((z / 16777216) mod 256))
    with (z mod 4294967296); [apply Zplus_mod_idemp_l|].
  change 4294967296 with (256 * 16777216).
  rewrite (Z.rem_mul_r z 256 16777216) by lia.
  change 16777216 with (256 * 65536) at 1.
  rewrite (Z.rem_mul_r (z / 256) 256 65536) by lia.
  change 65536 with (256 * 256) at 1.
  rewrite (Z.rem_mul_r (z / 256 / 256) 256 256) by lia.
  rewrite !Z.div_div by lia. change (256 * 256) with 65536.
  change (65536 * 256) with 16777216. ring.
Qed.

Lemma lanes16_pack16 l : lanes16 (pack16 l) = map int16 l.
Proof.
  induction l as [|z l IH]; [reflexivity|].
  unfold pack16 in *. cbn [flat_map bytes16 app lanes16 map].
  rewrite int16_bytes, IH. reflexivity.
Qed.

Lemma lanes32_pack32 l : lanes32 (pack32 l) = map int32 l.
Proof.
  induction l as [|z l IH]; [reflexivity|].
  unfold pack32 in *. cbn [flat_map bytes32 app lanes32 map].
  rewrite int32_bytes, IH. reflexivity.
Qed.

Lemma byte_of_shifted z k m :
  0 < m -> ((z + k * (m * 256)) / m) mod 256 = (z / m) mod 256.
Proof.
  intros Hm. replace (k * (m * 256)) with (k * 256 * m) by ring.
  rewrite Z.div_add by lia. apply Z.mod_add. lia.
Qed.

Lemma bytes32_shifted z k : bytes32 (z + k * 4294967296) = bytes32 z.
Proof.
  unfold bytes32.
  rewrite <- (Z.div_1_r (z + k * 4294967296)) at 1.
  rewrite <- (Z.div_1_r z) at 5.
  replace (k * 4294967296) with (k * 16777216 * (1 * 256)) at 1 by ring.
  replace (k * 4294967296) with (k * 65536 * (256 * 256)) at 1 by ring.
  replace (k * 4294967296) with (k * 256 * (65536 * 256)) at 1 by ring.
  replace (k * 4294967296) with (k * (16777216 * 256)) by ring.
  rewrite !byte_of_shifted by lia. reflexivity.
Qed.

Lemma bytes32_wrap z : bytes32 (int32 z) = bytes32 z.
Proof.
  unfold int32, wrap.
  change (2 ^ (32 - 1)) with 2147483648. change (2 ^ 32) with 4294967296.
  rewrite Z.mod_eq by lia.
  replace (z + 2147483648
           - 4294967296 * ((z + 2147483648) / 4294967296) - 2147483648)
    with (z + - ((z + 2147483648) / 4294967296) * 4294967296) by ring.
  apply bytes32_shifted.
Qed.

Lemma lanes16_zero_extend l :
  Forall is_byte l -> lanes16 (_mm256_cvtepu8_epi16 l) = l.
Proof.
  unfold _mm256_cvtepu8_epi16, is_byte.
  induction 1 as [|x l Hx Hl IH]; [reflexivity|].
  cbn [flat_map app lanes16]. rewrite IH, int16_small by lia. f_equal. lia.
Qed.

Lemma interleave_zeros l n :
  (length l <= n)%nat -> interleave l (repeat 0 n) = _mm256_cvtepu8_epi16 l.
Proof.
  unfold _mm256_cvtepu8_epi16. revert n.
  induction l as [|x l IH]; intros n Hn; [destruct n; reflexivity|].
  destruct n as [|n]; [cbn in Hn; lia|].
  cbn [repeat interleave flat_map app]. rewrite IH by (cbn in Hn; lia).
  reflexivity.
Qed.

(** The squared differences of two rows of samples, added in adjacent
    pairs: what the subtraction and [_mm256_madd_epi16] leave in the 32-bit
    lanes. *)
Fixpoint pair_sq (xs ys : list Z) : list Z :=
  match xs, ys with
  | x0 :: x1 :: xr, y0 :: y1 :: yr =>
      ((x0 - y0) * (x0 - y0) + (x1 - y1) * (x1 - y1)) :: pair_sq xr yr
  | _, _ => []
  end.

Lemma sub_lanes xs : forall ys,
  Forall is_byte xs -> Forall is_byte ys ->
  map int16 (zip_with (fun x y => int16 (x - y)) xs ys) = zip_with Z.sub xs ys.
Proof.
  unfold is_byte.
  induction xs as [|x xs IH]; intros [|y ys] Hx Hy; try reflexivity.
  inversion Hx; inversion Hy; subst.
  cbn [zip_with map]. rewrite IH by assumption.
  rewrite !int16_small by (try rewrite int16_small; lia). reflexivity.
Qed.

Lemma madd_sq_lanes xs : forall ys,
  Forall is_byte xs -> Forall is_byte ys ->
  map int32 (madd_pairs (zip_with Z.sub xs ys) (zip_with Z.sub xs ys))
  = pair_sq xs ys.
Proof.
  induction xs as [| x | x0 x1 xs IH] using pair_induction;
    intros ys Hx Hy.
  - reflexivity.
  - destruct ys as [|y [|y' ys]]; reflexivity.
  - destruct ys as [|y0 [|y1 ys]]; try reflexivity.
    inversion Hx as [|? ? Hx0 Hx']; inversion Hx' as [|? ? Hx1 Hxs];
      inversion Hy as [|? ? Hy0 Hy']; inversion Hy' as [|? ? Hy1 Hys]; subst.
    cbn [zip_with madd_pairs map pair_sq]. rewrite IH by assumption.
    pose proof (sq_byte_diff x0 y0 Hx0 Hy0).
    pose proof (sq_byte_diff x1 y1 Hx1 Hy1).
    rewrite !int32_small by (try rewrite int32_small; lia). reflexivity.
Qed.

(** The array the kernels store the squares into, from the zero-extended
    samples. *)
Lemma sq_arr_lanes xs ys :
  Forall is_byte xs -> Forall is_byte ys ->
  store_int32
    (_mm256_madd_epi16
       (_mm256_sub_epi16 (_mm256_cvtepu8_epi16 xs) (_mm256_cvtepu8_epi16 ys))
       (_mm256_sub_epi16 (_mm256_cvtepu8_epi16 xs) (_mm256_cvtepu8_epi16 ys)))
  = pair_sq xs ys.
Proof.
  intros Hx Hy.
  unfold store_int32, _mm256_madd_epi16, _mm256_sub_epi16.
  rewrite lanes32_pack32, lanes16_pack16, !lanes16_zero_extend by assumption.
  rewrite sub_lanes by assumption. apply madd_sq_lanes; assumption.
Qed.

Lemma pair_sq_range xs : forall ys,
  Forall is_byte xs -> Forall is_byte ys ->
  Forall (fun s => 0 <= s <= 130050) (pair_sq xs ys).
Proof.
  induction xs as [| x | x0 x1 xs IH] using pair_induction;
    intros ys Hx Hy.
  - constructor.
  - destruct ys as [|y [|y' ys]]; constructor.
  - destruct ys as [|y0 [|y1 ys]]; try constructor.
    + inversion Hx as [|? ? Hx0 Hx']; inversion Hx' as [|? ? Hx1 Hxs];
        inversion Hy as [|? ? Hy0 Hy']; inversion Hy' as [|? ? Hy1 Hys]; subst.
      pose proof (sq_byte_diff x0 y0 Hx0 Hy0).
      pose proof (sq_byte_diff x1 y1 Hx1 Hy1). lia.
    + inversion Hx as [|? ? Hx0 Hx']; inversion Hx' as [|? ? Hx1 Hxs];
        inversion Hy as [|? ? Hy0 Hy']; inversion Hy' as [|? ? Hy1 Hys]; subst.
      apply IH; assumption.
Qed.

(** ** One block of eight pixels *)

Definition idx32 : list Z :=
  [0; 1; 2; 3; 4; 5; 6; 7; 8; 9; 10; 11; 12; 13; 14; 15;
   16; 17; 18; 19; 20; 21; 22; 23; 24; 25; 26; 27; 28; 29; 30; 31].

Lemma loadu_in p i :
  0 <= i -> i + 32 <= Z.of_nat (length p) ->
  _mm256_loadu_si256 p i = Some (map (fun k => byte_at p (i + k)) idx32).
Proof.
  intros Hi Hn. unfold _mm256_loadu_si256.
  rewrite load_bytes_in by lia. reflexivity.
Qed.

(** The contribution of the eight pixels that start at byte [i]. *)
Definition block_ssd (a b : buffer) (i : Z) : Z :=
  sum_below 8 (fun p => pixel_ssd a b (i + p * 4)).

Lemma block_ssd_range a b i : 0 <= block_ssd a b i <= 1560600.
Proof.
  apply (sum_below_bounds 8 _ 195075). intros. apply pixel_ssd_range.
Qed.

(** The same contribution, from the samples [A k], [B k] at byte [i + k]. *)
Definition sq_at (A B : Z -> Z) (k : Z) : Z := (A k - B k) * (A k - B k).

Definition lane_ssd (A B : Z -> Z) : Z :=
  sum_below 8
    (fun p => sq_at A B (4 * p) + sq_at A B (4 * p + 1) + sq_at A B (4 * p + 2)).

Lemma block_ssd_lane a b i :
  block_ssd a b i
  = lane_ssd (fun k => byte_at a (i + k)) (fun k => byte_at b (i + k)).
Proof.
  unfold block_ssd, lane_ssd. apply sum_below_ext. intros p _.
  unfold pixel_ssd, sq_at. cbv zeta.
  replace (i + p * 4 + 0) with (i + 4 * p) by ring.
  replace (i + p * 4 + 1) with (i + (4 * p + 1)) by ring.
  replace (i + p * 4 + 2) with (i + (4 * p + 2)) by ring.
  reflexivity.
Qed.

Lemma int32_add_l x y : int32 (int32 x + y) = int32 (x + y).
Proof. apply wrap_add_l. Qed.

Lemma int32_add_r x y : int32 (x + int32 y) = int32 (x + y).
Proof. apply wrap_add_r. Qed.

Lemma int64_add_l x y : int64 (int64 x + y) = int64 (x + y).
Proof. apply wrap_add_l. Qed.

Lemma int32_sq_bytes x y :
  is_byte x -> is_byte y ->
  int32 (int32 (x - y) * int32 (x - y)) = (x - y) * (x - y).
Proof.
  unfold is_byte. intros Hx Hy. pose proof (sq_byte_diff x y Hx Hy).
  rewrite (int32_small (x - y)) by lia. apply int32_small. lia.
Qed.

Lemma int32_sq_at A B k :
  (forall k, is_byte (A k)) -> (forall k, is_byte (B k)) ->
  int32 (int32 (A k - B k) * int32 (A k - B k)) = sq_at A B k.
Proof. intros HA HB. apply int32_sq_bytes; auto. Qed.

Lemma sq_at_range A B k :
  (forall k, is_byte (A k)) -> (forall k, is_byte (B k)) ->
  0 <= sq_at A B k <= 65025.
Proof. intros HA HB. apply sq_byte_diff; [apply HA|apply HB]. Qed.

Lemma unpacklo_zero v :
  length v = 32%nat ->
  _mm256_unpacklo_epi8 v _mm256_setzero_si256
  = _mm256_cvtepu8_epi16 (firstn 8 v ++ firstn 8 (skipn 16 v)).
Proof.
  intros Hv. unfold _mm256_unpacklo_epi8, _mm256_setzero_si256.
  change (firstn 8 (repeat 0 32)) with (repeat 0 8).
  change (firstn 8 (skipn 16 (repeat 0 32))) with (repeat 0 8).
  rewrite !interleave_zeros by (rewrite length_firstn; lia).
  unfold _mm256_cvtepu8_epi16. now rewrite flat_map_app.
Qed.

Lemma unpackhi_zero v :
  length v = 32%nat ->
  _mm256_unpackhi_epi8 v _mm256_setzero_si256
  = _mm256_cvtepu8_epi16 (firstn 8 (skipn 8 v) ++ firstn 8 (skipn 24 v)).
Proof.
  intros Hv. unfold _mm256_unpackhi_epi8, _mm256_setzero_si256.
  change (firstn 8 (skipn 8 (repeat 0 32))) with (repeat 0 8).
  change (firstn 8 (skipn 24 (repeat 0 32))) with (repeat 0 8).
  rewrite !interleave_zeros by (rewrite length_firstn; lia).
  unfold _mm256_cvtepu8_epi16. now rewrite flat_map_app.
Qed.

(** Evaluate the closed indices of the local arrays and samples. *)
Ltac eval_closed f :=
  repeat match goal with
    | |- context [f ?k] =>
        let v := eval vm_compute in k in
        tryif constr_eq k v then fail else change (f k) with (f v)
    end.

Ltac eval_elt_index :=
  repeat match goal with
    | |- context [elt ?arr ?k] =>
        let v := eval vm_compute in k in
        tryif constr_eq k v then fail else change (elt arr k) with (elt arr v)
    end.

Ltac read_elts :=
  repeat match goal with
    | |- context [elt ?arr ?j] =>
        let v := eval cbv [elt nth Z.to_nat Pos.to_nat Pos.iter_op Nat.add]
                 in (elt arr j) in
        change (elt arr j) with v
    end.

(** Remove the wrap-arounds that the known ranges make the identity,
    innermost first. *)
Ltac unwrap32 :=
  repeat match goal with
    | |- context [int32 ?e] => rewrite (int32_small e) by lia
    end.

Ltac sq_at_ranges A B HA HB :=
  let rec go l :=
    lazymatch l with
    | ?k :: ?l' => pose proof (sq_at_range A B k HA HB); go l'
    | _ => idtac
    end in
  let l := eval cbv [idx32] in idx32 in go l.

Ltac bytes_list :=
  repeat (apply Forall_cons; [solve [auto]|]); apply Forall_nil.

Ltac list_of_8 l H :=
  do 8 (destruct l as [|? l]; [discriminate H|]);
  destruct l; [clear H|discriminate H].

Ltac split_Forall :=
  repeat match goal with
    | H : Forall _ (_ :: _) |- _ =>
        apply Forall_cons_iff in H; destruct H as [? H]
    | H : Forall _ [] |- _ => clear H
    end.

Lemma ssd_avx2_block_in a b i t :
  0 <= i -> i + 32 <= Z.of_nat (length a) -> i + 32 <= Z.of_nat (length b) ->
  ssd_avx2_block a b i t = Some (int64 (t + block_ssd a b i)).
Proof.
  intros Hi Ha Hb. unfold ssd_avx2_block.
  rewrite !loadu_in by assumption. cbn [bind]. cbv zeta.
  rewrite block_ssd_lane.
  set (A := fun k => byte_at a (i + k)). set (B := fun k => byte_at b (i + k)).
  assert (HA : forall k, is_byte (A k)) by (intros; apply byte_at_range).
  assert (HB : forall k, is_byte (B k)) by (intros; apply byte_at_range).
  rewrite !unpacklo_zero, !unpackhi_zero by reflexivity.
  cbv [idx32 map firstn skipn app].
  rewrite !sq_arr_lanes by bytes_list.
  repeat match goal with
    | |- context [pair_sq ?xs ?ys] =>
        let l := fresh "sq" in
        let E := fresh "E" in
        let HF := fresh "HF" in
        let HL := fresh "HL" in
        assert (HF : Forall (fun s => 0 <= s <= 130050) (pair_sq xs ys))
          by (apply pair_sq_range; bytes_list);
        assert (HL : length (pair_sq xs ys) = 8%nat) by reflexivity;
        remember (pair_sq xs ys) as l eqn:E; clear E;
        list_of_8 l HL; split_Forall
    end.
  cbv [for_each fold_left map app store_uint8].
  eval_elt_index. read_elts.
  rewrite !(int32_sq_at A B) by assumption.
  sq_at_ranges A B HA HB. clearbody A B. clear HA HB.
  repeat (rewrite int32_add_l || rewrite int32_add_r).
  unwrap32.
  rewrite <- !Z.add_opp_r.
  repeat (rewrite int64_add_l || rewrite <- Z.add_assoc).
  do 2 f_equal. cbv [lane_ssd sum_below]. eval_closed (sq_at A B). ring.
Qed.

(** Replace the samples the block loop reads back from memory, at
    [i + 4p + c], by the samples [A k], [B k] of the loaded registers. *)
Ltac fold_sq_at A B :=
  repeat match goal with
    | |- context [(A ?k - B ?k) * (A ?k - B ?k)] =>
        change ((A k - B k) * (A k - B k)) with (sq_at A B k)
    end.

Ltac eval_pixel_offsets :=
  repeat match goal with
    | |- context [int32 (?p * 4)] =>
        let v := eval vm_compute in (int32 (p * 4)) in
        change (int32 (p * 4)) with v
    end.

Ltac fold_samples i a b A B :=
  repeat match goal with
    | |- context [byte_at ?p (i + ?x + ?y)] =>
        let v := eval vm_compute in (x + y) in
        replace (i + x + y) with (i + v) by ring
    end;
  repeat match goal with
    | |- context [byte_at a (i + ?k)] => change (byte_at a (i + k)) with (A k)
    | |- context [byte_at b (i + ?k)] => change (byte_at b (i + k)) with (B k)
    end.

Lemma ssd_avx2_simple_block_in a b i t :
  0 <= i -> i + 32 <= Z.of_nat (length a) -> i + 32 <= Z.of_nat (length b) ->
  i + 31 <= INT_MAX ->
  ssd_avx2_simple_block a b i t = Some (int64 (t + block_ssd a b i)).
Proof.
  unfold INT_MAX. intros Hi Ha Hb Hm. unfold ssd_avx2_simple_block.
  rewrite !loadu_in by assumption. cbn [bind]. cbv zeta.
  rewrite block_ssd_lane.
  set (A := fun k => byte_at a (i + k)). set (B := fun k => byte_at b (i + k)).
  assert (HA : forall k, is_byte (A k)) by (intros; apply byte_at_range).
  assert (HB : forall k, is_byte (B k)) by (intros; apply byte_at_range).
  cbv [_mm256_castsi256_si128 _mm256_extracti128_si256 Z.odd
         idx32 map firstn skipn].
  rewrite !sq_arr_lanes by bytes_list.
  cbv [pair_sq for_each fold_left]. fold_sq_at A B.
  eval_elt_index. read_elts. eval_pixel_offsets. cbn [bind].
  rewrite !(int32_small (i + _)) by lia.
  rewrite !(int32_small (i + _ + _)) by lia.
  rewrite !load_u8_in by lia. cbn [bind].
  fold_samples i a b A B.
  rewrite !(int32_sq_at A B) by assumption.
  sq_at_ranges A B HA HB. clearbody A B. clear HA HB.
  rewrite <- !Z.add_opp_r.
  repeat (rewrite int32_add_l || rewrite <- Z.add_assoc).
  unwrap32.
  do 3 f_equal. cbv [lane_ssd sum_below]. eval_closed (sq_at A B). ring.
Qed.

Lemma ssd_avx2_v2_block_in a b i acc :
  0 <= i -> i + 32 <= Z.of_nat (length a) -> i + 32 <= Z.of_nat (length b) ->
  i + 31 <= INT_MAX ->
  ssd_avx2_v2_block a b i acc
  = Some (_mm256_add_epi32 acc (_mm256_set1_epi32 (block_ssd a b i))).
Proof.
  unfold INT_MAX. intros Hi Ha Hb Hm. unfold ssd_avx2_v2_block.
  rewrite !loadu_in by assumption. cbn [bind]. cbv zeta.
  rewrite block_ssd_lane.
  set (A := fun k => byte_at a (i + k)). set (B := fun k => byte_at b (i + k)).
  assert (HA : forall k, is_byte (A k)) by (intros; apply byte_at_range).
  assert (HB : forall k, is_byte (B k)) by (intros; apply byte_at_range).
  cbv [_mm256_castsi256_si128 _mm256_extracti128_si256 Z.odd
         idx32 map firstn skipn].
  rewrite !sq_arr_lanes by bytes_list.
  cbv [pair_sq for_each fold_left]. fold_sq_at A B.
  eval_elt_index. read_elts. eval_pixel_offsets. cbn [bind].
  rewrite !(int32_small (i + _)) by lia.
  rewrite !(int32_small (i + _ + _)) by lia.
  rewrite !load_u8_in by lia. cbn [bind].
  fold_samples i a b A B.
  rewrite !(int32_sq_at A B) by assumption.
  sq_at_ranges A B HA HB. clearbody A B. clear HA HB.
  repeat (rewrite int32_add_l || rewrite <- Z.add_assoc).
  unwrap32.
  do 3 f_equal. cbv [lane_ssd sum_below]. eval_closed (sq_at A B). ring.
Qed.

(** Adding a broadcast value to a broadcast accumulator: every lane holds the
    sum, modulo [2^32]. *)
Lemma add_set1 t d :
  _mm256_add_epi32 (_mm256_set1_epi32 t) (_mm256_set1_epi32 d)
  = _mm256_set1_epi32 (t + d).
Proof.
  unfold _mm256_add_epi32, _mm256_set1_epi32.
  rewrite !lanes32_pack32. cbv [repeat map zip_with pack32 flat_map].
  rewrite int32_add_l, int32_add_r, bytes32_wrap. reflexivity.
Qed.

Lemma setzero_set1 : _mm256_setzero_si256 = _mm256_set1_epi32 0.
Proof. reflexivity. Qed.

Lemma store_set1 t : store_int32 (_mm256_set1_epi32 t) = repeat (int32 t) 8.
Proof.
  unfold store_int32, _mm256_set1_epi32. rewrite lanes32_pack32. reflexivity.
Qed.

(** ** Rows: whole blocks of eight pixels, then the remainder *)

Lemma sum_below_blocks n g :
  sum_below (n * 8) g
  = sum_below n (fun k => sum_below 8 (fun p => g (8 * k + p))).
Proof.
  induction n as [|n IH]; [reflexivity|].
  replace (S n * 8)%nat with (n * 8 + 8)%nat by lia.
  rewrite sum_below_app, IH. cbn [sum_below]. f_equal.
  replace (Z.of_nat (n * 8)) with (8 * Z.of_nat n) by lia. reflexivity.
Qed.

Section Kernels.

Variables (a b : buffer) (stride width height : Z).
Hypothesis contract : in_contract a b stride width height.

(** The byte offset of pixel [x] of row [y], as the kernels compute it. *)
Definition offset (y x : Z) : Z := int32 (int32 (y * stride) + int32 (x * 4)).

Lemma offset_eq y x :
  0 <= y < height -> 0 <= x < width -> offset y x = y * stride + x * 4.
Proof.
  intros Hy Hx. pose proof contract as [? ? ? ? ? ? ?]. unfold INT_MAX in *.
  pose proof (offset_in_image a b stride width height contract y x 0
                Hy Hx ltac:(lia)).
  pose proof (offset_in_image a b stride width height contract y 0 0
                Hy ltac:(lia) ltac:(lia)).
  unfold offset.
  rewrite (int32_small (y * stride)), (int32_small (x * 4)) by lia.
  apply int32_small. lia.
Qed.

Lemma row_ssd_split y :
  row_ssd a b stride width y
  = sum_below (Z.to_nat (width / 8))
      (fun k => block_ssd a b (y * stride + (0 + k * 8) * 4))
    + sum_below (Z.to_nat (width mod 8))
        (fun k => pixel_ssd a b (y * stride + (width / 8 * 8 + k * 1) * 4)).
Proof.
  pose proof contract as [? ? ? ? ? ? ?]. unfold row_ssd.
  pose proof (Z.div_mod width 8 ltac:(lia)).
  pose proof (Z.mod_pos_bound width 8 ltac:(lia)).
  assert (0 <= width / 8) by (apply Z.div_pos; lia).
  replace (Z.to_nat width)
    with (Z.to_nat (width / 8) * 8 + Z.to_nat (width mod 8))%nat
    by (apply Nat2Z.inj;
        rewrite Nat2Z.inj_add, Nat2Z.inj_mul, !Z2Nat.id by lia; lia).
  rewrite sum_below_app, sum_below_blocks. f_equal.
  - apply sum_below_ext. intros k _. unfold block_ssd.
    apply sum_below_ext. intros p _. f_equal. lia.
  - apply sum_below_ext. intros k _. f_equal. lia.
Qed.

(** The blocks of eight pixels end before the last pixel of the row unless
    [width] is a multiple of 8. *)
Lemma block_reach y k :
  block_offsets_fit stride width height ->
  0 <= y < height -> 0 <= k < width / 8 ->
  y * stride + (0 + k * 8) * 4 + 31 <= INT_MAX.
Proof.
  intros Hfit Hy Hk. pose proof contract as [? ? ? ? ? ? ?].
  unfold block_offsets_fit, INT_MAX in *.
  pose proof (Z.div_mod width 8 ltac:(lia)).
  pose proof (Z.mod_pos_bound width 8 ltac:(lia)).
  assert (y * stride <= (height - 1) * stride)
    by (apply Z.mul_le_mono_nonneg_r; lia).
  destruct (Z.eq_dec (width mod 8) 0) as [E|E]; [specialize (Hfit E)|]; lia.
Qed.

Section Row.

Context {St : Type} (repr : Z -> St).
Variables (cond : Z -> bool) (block tail : Z -> St -> option St) (B : Z).

(** [reach]: the block computes the indices [i .. i + reach] as [int]s. *)
Variable reach : Z.

Hypothesis reach_ok :
  forall y k, 0 <= y < height -> 0 <= k < width / 8 ->
    y * stride + (0 + k * 8) * 4 + reach <= INT_MAX.
Hypothesis cond_blocks :
  forall k, 0 <= k < width / 8 -> cond (0 + k * 8) = true.
Hypothesis cond_exit : cond (0 + width / 8 * 8) = false.
Hypothesis block_ok :
  forall i t,
    0 <= i -> i + 32 <= Z.of_nat (length a) ->
    i + 32 <= Z.of_nat (length b) -> i + reach <= INT_MAX ->
    0 <= t -> t + 1560600 <= B ->
    block i (repr t) = Some (repr (t + block_ssd a b i)).
Hypothesis tail_ok :
  forall i t,
    0 <= i -> i + 2 < Z.of_nat (length a) ->
    i + 2 < Z.of_nat (length b) -> i + 2 <= INT_MAX ->
    0 <= t -> t + 195075 <= B ->
    tail i (repr t) = Some (repr (t + pixel_ssd a b i)).

Lemma simd_row y t :
  0 <= y < height -> 0 <= t -> t + width * 195075 <= B ->
  ('(x, s) <-
     for_loop (S (Z.to_nat width)) cond 8
       (fun x s => block (offset y x) s) 0 (repr t) ;;
   '(_, s) <-
     for_loop (S (Z.to_nat width)) (fun x => x <? width) 1
       (fun x s => tail (offset y x) s) x s ;;
   Some s)
  = Some (repr (t + row_ssd a b stride width y)).
Proof.
  intros Hy Ht HB. pose proof contract as [? ? ? ? ? ? ?].
  unfold INT_MAX in *.
  assert (Hs : stride * 1 <= stride * height)
    by (apply Z.mul_le_mono_nonneg_l; lia).
  pose proof (Z.div_mod width 8 ltac:(lia)) as Hdm.
  pose proof (Z.mod_pos_bound width 8 ltac:(lia)) as Hmod.
  assert (Hdiv : 0 <= width / 8) by (apply Z.div_pos; lia).
  assert (Hblocks : 0 <= sum_below (Z.to_nat (width / 8))
             (fun k => block_ssd a b (y * stride + (0 + k * 8) * 4))
           <= Z.of_nat (Z.to_nat (width / 8)) * 1560600)
    by (apply sum_below_bounds; intros; apply block_ssd_range).
  rewrite (for_loop_sum repr _ cond 8 1560600 B ltac:(lia)
             (Z.to_nat (width / 8)) _
             (fun k => block_ssd a b (y * stride + (0 + k * 8) * 4)));
    unfold INT_MIN, INT_MAX; try lia.
  - cbn [bind].
    replace (0 + Z.of_nat (Z.to_nat (width / 8)) * 8)
      with (width / 8 * 8) by lia.
    rewrite (for_loop_sum repr _ _ 1 195075 B ltac:(lia)
               (Z.to_nat (width mod 8)) _
               (fun k => pixel_ssd a b
                           (y * stride + (width / 8 * 8 + k * 1) * 4)));
      unfold INT_MIN, INT_MAX; try lia.
    + cbn [bind]. rewrite row_ssd_split. do 2 f_equal. ring.
    + apply Z.ltb_ge. lia.
    + intros k t' Hk Ht' HB'.
      rewrite offset_eq by lia.
      pose proof (offset_in_image a b stride width height contract y
                    (width / 8 * 8 + k * 1) 0 Hy ltac:(lia) ltac:(lia)).
      pose proof (offset_in_image a b stride width height contract y
                    (width / 8 * 8 + k * 1) 2 Hy ltac:(lia) ltac:(lia)).
      apply tail_ok; unfold INT_MAX; lia.
    + intros k Hk. apply pixel_ssd_range.
  - intros k Hk. apply cond_blocks. lia.
  - replace (Z.of_nat (Z.to_nat (width / 8))) with (width / 8) by lia.
    exact cond_exit.
  - intros k t' Hk Ht' HB'.
    rewrite offset_eq by lia.
    pose proof (offset_in_image a b stride width height contract y
                  (0 + k * 8) 0 Hy ltac:(lia) ltac:(lia)).
    pose proof (offset_in_image a b stride width height contract y
                  (0 + k * 8 + 7) 3 Hy ltac:(lia) ltac:(lia)).
    pose proof (reach_ok y k Hy ltac:(lia)) as Hreach.
    apply block_ok; unfold INT_MAX in *; lia.
  - intros k Hk. apply block_ssd_range.
Qed.

End Row.

(** The loop over the rows. *)
Lemma kernel_rows {St : Type} (repr : Z -> St) (row : Z -> St -> option St)
    (B : Z) :
  height * (width * 195075) <= B ->
  (forall y t, 0 <= y < height -> 0 <= t -> t + width * 195075 <= B ->
     row y (repr t) = Some (repr (t + row_ssd a b stride width y))) ->
  for_loop (S (Z.to_nat height)) (fun y => y <? height) 1 row 0 (repr 0)
  = Some (height, repr (ssd_spec a b stride width height)).
Proof.
  intros HB Hrow. pose proof contract as [? ? ? ? ? ? ?].
  unfold INT_MAX in *.
  pose proof (height_int a b stride width height contract) as [? _].
  rewrite (for_loop_sum repr row _ 1 (width * 195075) B ltac:(lia)
             (Z.to_nat height) _ (row_ssd a b stride width));
    unfold INT_MIN, INT_MAX; try lia.
  - unfold ssd_spec. do 2 f_equal. lia.
  - apply Z.ltb_ge. lia.
  - intros k t Hk Ht HB'. replace (0 + k * 1) with k by lia.
    apply Hrow; lia.
  - intros k Hk. apply (row_ssd_range a b stride width height contract).
Qed.

End Kernels.

(** ** The kernels compute the contract's sum *)

Section Correctness.

Variables (a b : buffer) (stride width height : Z).
Hypothesis contract : in_contract a b stride width height.

Lemma spec_is_double :
  Double.of_int (ssd_spec a b stride width height)
  = ssd_spec a b stride width height.
Proof.
  pose proof (ssd_spec_range a b stride width height contract).
  pose proof (pixels_bound a b stride width height contract).
  apply round_small. lia.
Qed.

Lemma remainder_step i t :
  0 <= i -> i + 2 < Z.of_nat (length a) -> i + 2 < Z.of_nat (length b) ->
  i + 2 <= INT_MAX -> 0 <= t -> t + 195075 <= 2 ^ 62 ->
  (d <- rgb_sq_diff a b i ;; Some (int64 (t + d)))
  = Some (t + pixel_ssd a b i).
Proof.
  intros. rewrite rgb_sq_diff_in by assumption. cbn [bind].
  pose proof (pixel_ssd_range a b i).
  change (2 ^ 62) with 4611686018427387904 in *.
  rewrite int64_small by lia. reflexivity.
Qed.

Theorem ssd_avx2_correct :
  ssd_avx2 a b stride width height
  = Some (ssd_spec a b stride width height).
Proof.
  pose proof contract as [? ? ? ? ? ? ?].
  pose proof (pixels_bound a b stride width height contract).
  assert (Hdiv : 0 <= width / 8) by (apply Z.div_pos; lia).
  pose proof (Z.div_mod width 8 ltac:(lia)) as Hdm.
  pose proof (Z.mod_pos_bound width 8 ltac:(lia)) as Hmod.
  assert (Hsw : int32 (int32 (width ÷ 8) * 8) = width / 8 * 8).
  { unfold INT_MAX in *. rewrite Z.quot_div_nonneg by lia.
    rewrite (int32_small (width / 8)) by lia. apply int32_small. lia. }
  unfold ssd_avx2. cbv zeta. rewrite Hsw.
  rewrite (kernel_rows a b stride width height contract (fun t => t) _
             (2 ^ 62)).
  - cbn [bind]. now rewrite spec_is_double.
  - change (2 ^ 62) with 4611686018427387904. lia.
  - intros y t Hy Ht HB.
    refine (simd_row a b stride width height contract (fun t => t)
              (fun x => x <? width / 8 * 8) (ssd_avx2_block a b)
              (fun i s => d <- rgb_sq_diff a b i ;; Some (int64 (s + d)))
              (2 ^ 62) 2 _ _ _ _ _ y t Hy Ht HB).
    + intros y' k Hy' Hk.
      pose proof (offset_in_image a b stride width height contract y'
                    (0 + k * 8) 0 Hy' ltac:(lia) ltac:(lia)).
      unfold INT_MAX. lia.
    + intros k Hk. apply Z.ltb_lt. lia.
    + apply Z.ltb_ge. lia.
    + intros i t' Hi Ha Hb Hm Ht' HB'.
      rewrite ssd_avx2_block_in by assumption.
      pose proof (block_ssd_range a b i).
      change (2 ^ 62) with 4611686018427387904 in *.
      rewrite int64_small by lia. reflexivity.
    + intros. now apply remainder_step.
Qed.

Theorem ssd_avx2_simple_correct :
  block_offsets_fit stride width height ->
  ssd_avx2_simple a b stride width height
  = Some (ssd_spec a b stride width height).
Proof.
  intros Hfit. pose proof contract as [? ? ? ? ? ? ?].
  pose proof (pixels_bound a b stride width height contract).
  assert (Hdiv : 0 <= width / 8) by (apply Z.div_pos; lia).
  pose proof (Z.div_mod width 8 ltac:(lia)) as Hdm.
  pose proof (Z.mod_pos_bound width 8 ltac:(lia)) as Hmod.
  unfold ssd_avx2_simple. cbv zeta.
  rewrite (int32_small (width - 8)) by (unfold INT_MAX in *; lia).
  rewrite (kernel_rows a b stride width height contract (fun t => t) _
             (2 ^ 62)).
  - cbn [bind]. now rewrite spec_is_double.
  - change (2 ^ 62) with 4611686018427387904. lia.
  - intros y t Hy Ht HB.
    refine (simd_row a b stride width height contract (fun t => t)
              (fun x => x <=? width - 8) (ssd_avx2_simple_block a b)
              (fun i s => d <- rgb_sq_diff a b i ;; Some (int64 (s + d)))
              (2 ^ 62) 31 _ _ _ _ _ y t Hy Ht HB).
    + intros y' k. now apply (block_reach a b stride width height contract).
    + intros k Hk. apply Z.leb_le. lia.
    + apply Z.leb_gt. lia.
    + intros i t' Hi Ha Hb Hm Ht' HB'.
      rewrite ssd_avx2_simple_block_in by assumption.
      pose proof (block_ssd_range a b i).
      change (2 ^ 62) with 4611686018427387904 in *.
      rewrite int64_small by lia. reflexivity.
    + intros. now apply remainder_step.
Qed.

(** [ssd_avx2_v2] adds every contribution to each of the eight 32-bit
    lanes of [acc] and then adds the eight lanes: it returns eight times the
    sum, each lane reduced modulo [2^32]. *)
Theorem ssd_avx2_v2_result :
  block_offsets_fit stride width height ->
  ssd_avx2_v2 a b stride width height
  = Some (8 * int32 (ssd_spec a b stride width height)).
Proof.
  intros Hfit. pose proof contract as [? ? ? ? ? ? ?].
  pose proof (pixels_bound a b stride width height contract).
  assert (Hdiv : 0 <= width / 8) by (apply Z.div_pos; lia).
  pose proof (Z.div_mod width 8 ltac:(lia)) as Hdm.
  pose proof (Z.mod_pos_bound width 8 ltac:(lia)) as Hmod.
  unfold ssd_avx2_v2. cbv zeta.
  rewrite (int32_small (width - 8)) by (unfold INT_MAX in *; lia).
  rewrite setzero_set1.
  rewrite (kernel_rows a b stride width height contract _mm256_set1_epi32 _
             (2 ^ 62)).
  - cbn [bind]. rewrite store_set1.
    cbv [for_each fold_left repeat]. eval_elt_index. read_elts.
    set (T := int32 (ssd_spec a b stride width height)).
    assert (-2147483648 <= T <= 2147483647).
    { unfold T, int32, wrap.
      change (2 ^ (32 - 1)) with 2147483648.
      change (2 ^ 32) with 4294967296.
      pose proof (Z.mod_pos_bound
                    (ssd_spec a b stride width height + 2147483648)
                    4294967296 ltac:(lia)).
      lia. }
    repeat match goal with
      | |- context [int64 ?e] => rewrite (int64_small e) by lia
      end.
    unfold Double.of_int. rewrite round_small by lia. f_equal. ring.
  - change (2 ^ 62) with 4611686018427387904. lia.
  - intros y t Hy Ht HB.
    refine (simd_row a b stride width height contract _mm256_set1_epi32
              (fun x => x <=? width - 8) (ssd_avx2_v2_block a b)
              (fun i acc =>
                 d <- rgb_sq_diff a b i ;;
                 Some (_mm256_add_epi32 acc (_mm256_set1_epi32 d)))
              (2 ^ 62) 31 _ _ _ _ _ y t Hy Ht HB).
    + intros y' k. now apply (block_reach a b stride width height contract).
    + intros k Hk. apply Z.leb_le. lia.
    + apply Z.leb_gt. lia.
    + intros i t' Hi Ha Hb Hm Ht' HB'.
      rewrite ssd_avx2_v2_block_in by assumption.
      now rewrite add_set1.
    + intros i t' Hi Ha Hb Hm Ht' HB'.
      rewrite rgb_sq_diff_in by assumption. cbn [bind].
      now rewrite add_set1.
Qed.

End Correctness.

(** ** Properties of the contract's sum *)

Lemma valid_in_contract a b stride width height :
  valid_input a b stride width height -> in_contract a b stride width height.
Proof.
  intros [? ? ? ? ? ?]. unfold INT_MAX in *.
  assert (stride * 1 <= stride * height)
    by (apply Z.mul_le_mono_nonneg_l; lia).
  split; unfold INT_MAX; lia.
Qed.

Lemma contract_in_contract a b stride width height :
  kernel_contract a b stride width height ->
  rgb_offsets_fit stride width height ->
  in_contract a b stride width height.
Proof.
  intros [? ? ? ? ?] Hfit. unfold rgb_offsets_fit, INT_MAX in *.
  assert (0 <= (height - 1) * stride) by (apply Z.mul_nonneg_nonneg; lia).
  split; unfold INT_MAX; lia.
Qed.

Lemma valid_block_offsets a b stride width height :
  valid_input a b stride width height ->
  block_offsets_fit stride width height.
Proof. intros [? ? ? ? ? ?] _. unfold INT_MAX in *. lia. Qed.

(** An image whose size is an [int] meets the contract, and all its offsets
    are [int]s. *)
Lemma valid_input_fits a b stride width height :
  valid_input a b stride width height ->
  kernel_contract a b stride width height
  /\ rgb_offsets_fit stride width height
  /\ block_offsets_fit stride width height.
Proof.
  intros Hv. pose proof (valid_block_offsets _ _ _ _ _ Hv).
  destruct Hv. unfold rgb_offsets_fit, INT_MAX in *.
  repeat split; try assumption. lia.
Qed.

(** The sum only depends on the R, G and B samples of the pixels. *)
Definition same_rgb (p q : buffer) (stride width height : Z) : Prop :=
  forall y x c,
    0 <= y < height -> 0 <= x < width -> 0 <= c < 3 ->
    byte_at p (y * stride + x * 4 + c) = byte_at q (y * stride + x * 4 + c).

Lemma ssd_spec_same_rgb a a' b b' stride width height :
  same_rgb a a' stride width height -> same_rgb b b' stride width height ->
  ssd_spec a b stride width height = ssd_spec a' b' stride width height.
Proof.
  intros Ha Hb. unfold ssd_spec.
  apply sum_below_ext. intros y Hy. unfold row_ssd.
  apply sum_below_ext. intros x Hx. unfold pixel_ssd. cbv zeta.
  rewrite !Ha, !Hb by lia. reflexivity.
Qed.

Lemma pixel_ssd_zero a b off :
  pixel_ssd a b off = 0
  <-> (forall c, 0 <= c < 3 -> byte_at a (off + c) = byte_at b (off + c)).
Proof.
  unfold pixel_ssd. cbv zeta.
  pose proof (Z.square_nonneg (byte_at a (off + 0) - byte_at b (off + 0))).
  pose proof (Z.square_nonneg (byte_at a (off + 1) - byte_at b (off + 1))).
  pose proof (Z.square_nonneg (byte_at a (off + 2) - byte_at b (off + 2))).
  split.
  - intros E c Hc.
    assert (Hsq : forall d, d * d = 0 -> d = 0) by (intros d Hd; nia).
    assert (c = 0 \/ c = 1 \/ c = 2) as [-> | [-> | ->]] by lia;
      apply Z.sub_move_0_r, Hsq; lia.
  - intros E. rewrite (E 0), (E 1), (E 2) by lia. ring.
Qed.

Lemma ssd_spec_zero a b stride width height :
  0 <= width -> 0 <= height ->
  ssd_spec a b stride width height = 0 <-> same_rgb a b stride width height.
Proof.
  intros Hw Hh. unfold ssd_spec, same_rgb.
  rewrite sum_below_zero.
  2:{ intros. apply sum_below_bounds with (M := 195075).
      intros. apply pixel_ssd_range. }
  split.
  - intros E y x c Hy Hx Hc.
    specialize (E y ltac:(lia)). unfold row_ssd in E.
    rewrite sum_below_zero in E by (intros; apply pixel_ssd_range).
    specialize (E x ltac:(lia)). rewrite pixel_ssd_zero in E. now apply E.
  - intros E y Hy. unfold row_ssd.
    rewrite sum_below_zero by (intros; apply pixel_ssd_range).
    intros x Hx. apply pixel_ssd_zero. intros c Hc. apply E; lia.
Qed.

Lemma byte_at_skipn p n i :
  0 <= n -> 0 <= i -> byte_at (skipn (Z.to_nat n) p) i = byte_at p (n + i).
Proof.
  intros Hn Hi. unfold byte_at. rewrite nth_skipn. do 2 f_equal. lia.
Qed.

(** Rows [h1 .. h1 + h2 - 1] of an image are rows [0 .. h2 - 1] of the image
    that starts [h1 * stride] bytes further. *)
Lemma ssd_spec_rows a b stride width h1 h2 :
  0 <= stride -> 0 <= h1 -> 0 <= h2 ->
  ssd_spec a b stride width (h1 + h2)
  = ssd_spec a b stride width h1
    + ssd_spec (skipn (Z.to_nat (h1 * stride)) a)
        (skipn (Z.to_nat (h1 * stride)) b) stride width h2.
Proof.
  intros Hs H1 H2. unfold ssd_spec.
  rewrite Z2Nat.inj_add, sum_below_app by lia. f_equal.
  apply sum_below_ext. intros y Hy. unfold row_ssd.
  apply sum_below_ext. intros x Hx. unfold pixel_ssd. cbv zeta.
  assert (0 <= h1 * stride) by (apply Z.mul_nonneg_nonneg; lia).
  assert (0 <= y * stride) by (apply Z.mul_nonneg_nonneg; lia).
  rewrite !byte_at_skipn by lia.
  rewrite Z2Nat.id by lia.
  replace (h1 * stride + (y * stride + x * 4 + 0))
    with ((h1 + y) * stride + x * 4 + 0) by ring.
  replace (h1 * stride + (y * stride + x * 4 + 1))
    with ((h1 + y) * stride + x * 4 + 1) by ring.
  replace (h1 * stride + (y * stride + x * 4 + 2))
    with ((h1 + y) * stride + x * 4 + 2) by ring.
  reflexivity.
Qed.

Lemma shards_in_contract a b stride width h1 h2 :
  in_contract a b stride width (h1 + h2) ->
  0 <= h1 -> 0 <= h2 ->
  in_contract a b stride width h1
  /\ in_contract (skipn (Z.to_nat (h1 * stride)) a)
       (skipn (Z.to_nat (h1 * stride)) b) stride width h2.
Proof.
  intros Hc H1 H2.
  destruct Hc as [? ? ? ? ? ? ?]. unfold INT_MAX in *.
  assert (0 <= stride * h1) by (apply Z.mul_nonneg_nonneg; lia).
  assert (0 <= stride * h2) by (apply Z.mul_nonneg_nonneg; lia).
  rewrite Z.mul_add_distr_l in *.
  split; split; unfold INT_MAX; rewrite ?length_skipn; lia.
Qed.

Lemma shard_contracts a b stride width height h1 h2 :
  valid_input a b stride width height ->
  0 <= h1 -> 0 <= h2 -> h1 + h2 = height ->
  in_contract a b stride width h1
  /\ in_contract (skipn (Z.to_nat (h1 * stride)) a)
       (skipn (Z.to_nat (h1 * stride)) b) stride width h2.
Proof.
  intros Hv H1 H2 E. subst height.
  apply shards_in_contract; [now apply valid_in_contract|lia|lia].
Qed.

Lemma shard_block_offsets a b stride width height h1 h2 :
  valid_input a b stride width height ->
  0 <= h1 -> 0 <= h2 -> h1 + h2 = height ->
  block_offsets_fit stride width h1 /\ block_offsets_fit stride width h2.
Proof.
  intros [? ? ? ? ? ?] H1 H2 E. unfold block_offsets_fit, INT_MAX in *.
  subst height.
  assert (0 <= stride * h1) by (apply Z.mul_nonneg_nonneg; lia).
  assert (0 <= stride * h2) by (apply Z.mul_nonneg_nonneg; lia).
  rewrite Z.mul_add_distr_l in *.
  split; intros _; lia.
Qed.

(** ** Inputs that agree outside a set of byte offsets *)

(** Byte [i] is the alpha sample of a pixel of the image. *)
Definition alpha_offset (stride width height : Z) (i : Z) : Prop :=
  exists y x, 0 <= y < height /\ 0 <= x < width /\ i = y * stride + x * 4 + 3.

(** Byte [i] lies in the padding of its row. *)
Definition padding_offset (stride width : Z) (i : Z) : Prop :=
  width * 4 <= i mod stride.

(** [q] is [p] with the bytes at the offsets in [P] changed at will. *)
Definition agree_except (P : Z -> Prop) (p q : buffer) : Prop :=
  length p = length q
  /\ forall i, 0 <= i -> ~ P i ->
       nth_error p (Z.to_nat i) = nth_error q (Z.to_nat i).

(** [&p[n]]: the buffer that starts [n] bytes further. *)
Definition advance (p : buffer) (n : Z) : buffer := skipn (Z.to_nat n) p.

Lemma nth_error_eq_nth (p : buffer) : forall q n d,
  nth_error p n = nth_error q n -> nth n p d = nth n q d.
Proof.
  induction p as [|x p IH]; intros [|y q] [|n] d; cbn; intros E;
    try congruence; try discriminate; auto.
  - symmetry in E. apply nth_error_None in E.
    symmetry. now apply nth_overflow.
  - apply nth_error_None in E. now apply nth_overflow.
Qed.

Lemma agree_same_rgb P p q stride width height :
  agree_except P p q ->
  (forall y x c, 0 <= y < height -> 0 <= x < width -> 0 <= c < 3 ->
     ~ P (y * stride + x * 4 + c)) ->
  0 <= stride ->
  same_rgb p q stride width height.
Proof.
  intros [_ Hag] HP Hs y x c Hy Hx Hc. unfold byte_at. f_equal.
  assert (0 <= y * stride) by (apply Z.mul_nonneg_nonneg; lia).
  apply nth_error_eq_nth, Hag; [lia|]. now apply HP.
Qed.

Lemma rgb_not_alpha stride width height y x c :
  width * 4 <= stride ->
  0 <= y < height -> 0 <= x < width -> 0 <= c < 3 ->
  ~ alpha_offset stride width height (y * stride + x * 4 + c).
Proof.
  intros Hs Hy Hx Hc (y' & x' & Hy' & Hx' & E).
  destruct (Z.lt_total y y') as [L | [-> | L]].
  - assert ((y + 1) * stride <= y' * stride)
      by (apply Z.mul_le_mono_nonneg_r; lia).
    lia.
  - lia.
  - assert ((y' + 1) * stride <= y * stride)
      by (apply Z.mul_le_mono_nonneg_r; lia).
    lia.
Qed.

Lemma rgb_not_padding stride width y x c :
  width * 4 <= stride -> 0 <= x < width -> 0 <= c < 3 ->
  ~ padding_offset stride width (y * stride + x * 4 + c).
Proof.
  intros Hs Hx Hc. unfold padding_offset.
  replace (y * stride + x * 4 + c) with (x * 4 + c + y * stride) by ring.
  rewrite Z.mod_add, Z.mod_small by lia. lia.
Qed.

Lemma agree_valid P a a' b b' stride width height :
  valid_input a b stride width height ->
  agree_except P a a' -> agree_except P b b' ->
  valid_input a' b' stride width height.
Proof.
  intros [? ? ? ? ? ?] [La _] [Lb _]. split; try assumption; congruence.
Qed.

Lemma agree_contract P a a' b b' stride width height :
  kernel_contract a b stride width height ->
  agree_except P a a' -> agree_except P b b' ->
  kernel_contract a' b' stride width height.
Proof.
  intros [? ? ? ? ?] [La _] [Lb _]. split; try assumption; congruence.
Qed.

(** Decision procedures for the two sets of offsets and for agreement. *)

Definition alpha_offsetb (stride width height : Z) (i : Z) : bool :=
  (0 <=? i) && (i / stride <? height) && (i mod stride <? width * 4)
  && (i mod stride mod 4 =? 3).

Definition padding_offsetb (stride width : Z) (i : Z) : bool :=
  width * 4 <=? i mod stride.

Definition agree_exceptb (Pb : Z -> bool) (p q : buffer) : bool :=
  (length p =? length q)%nat
  && forallb (fun k => Pb (Z.of_nat k) || Byte.eqb (nth k p x00) (nth k q x00))
       (seq 0 (length p)).

Lemma alpha_offsetb_sound stride width height i :
  0 < stride ->
  alpha_offsetb stride width height i = true ->
  alpha_offset stride width height i.
Proof.
  intros Hs H. unfold alpha_offsetb in H.
  apply andb_prop in H as [H H4]. apply andb_prop in H as [H H3].
  apply andb_prop in H as [H1 H2].
  apply Z.leb_le in H1. apply Z.ltb_lt in H2, H3. apply Z.eqb_eq in H4.
  pose proof (Z.div_mod i stride ltac:(lia)).
  pose proof (Z.mod_pos_bound i stride Hs).
  pose proof (Z.div_mod (i mod stride) 4 ltac:(lia)).
  assert (0 <= i / stride) by (apply Z.div_pos; lia).
  assert (0 <= i mod stride / 4) by (apply Z.div_pos; lia).
  exists (i / stride), (i mod stride / 4). lia.
Qed.

Lemma padding_offsetb_sound stride width i :
  padding_offsetb stride width i = true -> padding_offset stride width i.
Proof. apply Z.leb_le. Qed.

Lemma agree_exceptb_sound (P : Z -> Prop) (Pb : Z -> bool) p q :
  (forall i, Pb i = true -> P i) ->
  agree_exceptb Pb p q = true -> agree_except P p q.
Proof.
  intros HP H. unfold agree_exceptb in H. apply andb_prop in H as [HL HF].
  apply Nat.eqb_eq in HL. split; [exact HL|]. intros i Hi Hn.
  destruct (Nat.lt_ge_cases (Z.to_nat i) (length p)) as [Lt | Ge].
  - rewrite forallb_forall in HF.
    specialize (HF (Z.to_nat i) ltac:(apply in_seq; lia)).
    apply orb_prop in HF as [HF | HF].
    + rewrite Z2Nat.id in HF by lia. now apply HP in HF.
    + apply Byte.byte_dec_bl in HF.
      rewrite (nth_error_nth' p x00), (nth_error_nth' q x00) by lia.
      now f_equal.
  - rewrite (proj2 (nth_error_None p _)), (proj2 (nth_error_None q _)) by lia.
    reflexivity.
Qed.

(** ** Concrete images *)

Definition byte_of (z : Z) : byte :=
  match Byte.of_N (Z.to_N (z mod 256)) with
  | Some x => x
  | None => x00
  end.

(** The buffer of [n] bytes whose byte [k] is [f k] (modulo 256). *)
Definition image (f : Z -> Z) (n : nat) : buffer :=
  map (fun k => byte_of (f (Z.of_nat k))) (seq 0 n).

(** Two rows of nine pixels (one block and one remainder pixel), four bytes of
    padding per row. *)
Definition frame_A : buffer := image (fun k => 7 * k * k + 3 * k + 11) 80.
Definition frame_B : buffer := image (fun k => 5 * k * k + k + 2) 80.

(** [frame_A] with other alpha samples, with other padding bytes. *)
Definition frame_A_alpha : buffer :=
  image (fun k => if (k mod 40 <? 36) && (k mod 4 =? 3) then k
                  else 7 * k * k + 3 * k + 11) 80.
Definition frame_B_alpha : buffer :=
  image (fun k => if (k mod 40 <? 36) && (k mod 4 =? 3) then 255 - k
                  else 5 * k * k + k + 2) 80.
Definition frame_A_padding : buffer :=
  image (fun k => if 36 <=? k mod 40 then k else 7 * k * k + 3 * k + 11) 80.
Definition frame_B_padding : buffer :=
  image (fun k => if 36 <=? k mod 40 then 255 - k else 5 * k * k + k + 2) 80.

(** Ten pixels in one row (one block and two remainder pixels), pixel [p] of
    the second image being [(p+1, 2(p+1), 3(p+1), 255)]. *)
Definition tail_A : buffer := repeat x00 40.
Definition tail_B : buffer :=
  image (fun k => if k mod 4 =? 3 then 255 else (k / 4 + 1) * (k mod 4 + 1)) 40.

(** One block, all samples 0 against all samples 255. *)
Definition black : buffer := repeat x00 32.
Definition white : buffer := repeat xff 32.

Ltac valid_geometry := split; vm_compute; (reflexivity || discriminate).
Ltac int_offsets :=
  unfold rgb_offsets_fit, block_offsets_fit, INT_MAX; lia.

(** Three rows of one pixel, [2^30] bytes apart: the buffers hold
    [3 * 2^30] bytes.  [wide l] starts with the bytes [l], all its other
    bytes are zero. *)
Definition wide_size : nat := Z.to_nat 3221225472.

Definition wide (l : buffer) : buffer :=
  l ++ repeat x00 (wide_size - length l).

Definition wide_A : buffer := wide [].
Definition wide_B : buffer := wide [x01; x02; x03; xff].

(** The same with another alpha sample in the first pixel, with another
    first byte of padding. *)
Definition wide_A_alpha : buffer := wide [x00; x00; x00; xff].
Definition wide_B_alpha : buffer := wide [x01; x02; x03; x00].
Definition wide_A_padding : buffer := wide [x00; x00; x00; x00; xff].
Definition wide_B_padding : buffer := wide [x01; x02; x03; xff; x07].

Lemma wide_size_Z : Z.of_nat wide_size = 3221225472.
Proof. unfold wide_size. apply Z2Nat.id. lia. Qed.

Lemma wide_length l :
  (length l <= wide_size)%nat -> Z.of_nat (length (wide l)) = 3221225472.
Proof.
  intros H. unfold wide. rewrite length_app, repeat_length.
  pose proof wide_size_Z. lia.
Qed.

Lemma wide_nth l n : nth n (wide l) x00 = nth n l x00.
Proof.
  unfold wide. destruct (Nat.lt_ge_cases n (length l)) as [L | G].
  - now apply app_nth1.
  - rewrite app_nth2 by exact G. rewrite nth_repeat.
    symmetry. now apply nth_overflow.
Qed.

Lemma wide_contract l1 l2 :
  (length l1 <= wide_size)%nat -> (length l2 <= wide_size)%nat ->
  kernel_contract (wide l1) (wide l2) 1073741824 1 3.
Proof. intros H1 H2. split; rewrite ?wide_length by assumption; lia. Qed.

Lemma wide_agree (P : Z -> Prop) l1 l2 :
  (length l1 <= wide_size)%nat -> (length l2 <= wide_size)%nat ->
  (forall n, ~ P (Z.of_nat n) -> nth n l1 x00 = nth n l2 x00) ->
  agree_except P (wide l1) (wide l2).
Proof.
  intros H1 H2 H.
  assert (L : length (wide l1) = length (wide l2))
    by (apply Nat2Z.inj; now rewrite !wide_length).
  split; [exact L|]. intros i Hi HP.
  destruct (Nat.lt_ge_cases (Z.to_nat i) (length (wide l1))) as [Lt | Ge].
  - rewrite (nth_error_nth' (wide l1) x00), (nth_error_nth' (wide l2) x00)
      by lia.
    f_equal. rewrite !wide_nth. apply H. now rewrite Z2Nat.id.
  - rewrite (proj2 (nth_error_None (wide l1) _)),
      (proj2 (nth_error_None (wide l2) _)) by lia.
    reflexivity.
Qed.

Ltac short_list := cbn [length]; pose proof wide_size_Z; lia.

(** The kernels compute the offset of the third row, [2 * 2^30], in [int]:
    the index of its first sample is [-2^31], whatever the buffers hold. *)
Lemma wide_rows_scalar a b : ssd_scalar a b 1073741824 1 3 = None.
Proof.
  unfold ssd_scalar. cbv zeta.
  rewrite (for_loop_stuck _ 1 _ ltac:(lia) 2); [reflexivity| | | |].
  - intros k Hk. apply Z.ltb_lt. lia.
  - intros s. vm_compute. reflexivity.
  - unfold INT_MIN. lia.
  - unfold INT_MAX. lia.
Qed.

Lemma wide_rows_vector a b :
  ssd_avx2 a b 1073741824 1 3 = None
  /\ ssd_avx2_simple a b 1073741824 1 3 = None
  /\ ssd_avx2_v2 a b 1073741824 1 3 = None.
Proof.
  unfold ssd_avx2, ssd_avx2_simple, ssd_avx2_v2. cbv zeta.
  split; [|split];
    (rewrite (for_loop_stuck _ 1 _ ltac:(lia) 2); [reflexivity| | | |];
     [intros k Hk; apply Z.ltb_lt; lia
     |intros s; vm_compute; reflexivity
     |unfold INT_MIN; lia
     |unfold INT_MAX; lia]).
Qed.

Lemma wide_alpha_A :
  agree_except (alpha_offset 1073741824 1 3) wide_A wide_A_alpha.
Proof.
  apply wide_agree; [short_list|short_list|].
  intros [|[|[|[|n]]]] HP; try reflexivity; try (destruct n; reflexivity).
  exfalso. apply HP. exists 0, 0. lia.
Qed.

Lemma wide_alpha_B :
  agree_except (alpha_offset 1073741824 1 3) wide_B wide_B_alpha.
Proof.
  apply wide_agree; [short_list|short_list|].
  intros [|[|[|[|n]]]] HP; try reflexivity; try (destruct n; reflexivity).
  exfalso. apply HP. exists 0, 0. lia.
Qed.

Lemma wide_padding_A :
  agree_except (padding_offset 1073741824 1) wide_A wide_A_padding.
Proof.
  apply wide_agree; [short_list|short_list|].
  intros [|[|[|[|[|n]]]]] HP; try reflexivity; try (destruct n; reflexivity).
  exfalso. apply HP. vm_compute. discriminate.
Qed.

Lemma wide_padding_B :
  agree_except (padding_offset 1073741824 1) wide_B wide_B_padding.
Proof.
  apply wide_agree; [short_list|short_list|].
  intros [|[|[|[|[|n]]]]] HP; try reflexivity; try (destruct n; reflexivity).
  exfalso. apply HP. vm_compute. discriminate.
Qed.

(** * The properties of the kernels *)

(** C2. For every input that meets the contract and on which the byte
    offset of the last blue sample, [(height-1) * stride + width * 4 - 2], is
    an [int], [ssd_scalar] returns exactly the sum, over the [width * height]
    pixels (pixel [x] of row [y] at byte offset [y * stride + x * 4]), of
    [dr*dr + dg*dg + db*db], the squared differences of the R, G and B
    samples; the alpha sample is not in the sum. *)
Theorem ssd_scalar_is_sum a b stride width height :
  kernel_contract a b stride width height ->
  rgb_offsets_fit stride width height ->
  ssd_scalar a b stride width height = Some (ssd_spec a b stride width height).
Proof.
  intros Hc Hfit. apply ssd_scalar_correct, contract_in_contract; assumption.
Qed.

Lemma ssd_scalar_is_sum_witness :
  ssd_scalar frame_A frame_B 40 9 2 = Some (ssd_spec frame_A frame_B 40 9 2).
Proof.
  apply (ssd_scalar_is_sum frame_A frame_B 40 9 2); [valid_geometry|int_offsets].
Defined.

(** C2 with the contract alone: three rows of one pixel, [2^30] bytes apart,
    in buffers of [3 * 2^30] bytes meet it, and [ssd_scalar] does not return
    the sum; it has no result at all ([wide_rows_scalar]). *)
Lemma ssd_scalar_is_sum_wide_rows :
  kernel_contract wide_A wide_B 1073741824 1 3
  /\ ssd_scalar wide_A wide_B 1073741824 1 3
     <> Some (ssd_spec wide_A wide_B 1073741824 1 3).
Proof.
  split; [apply wide_contract; short_list|].
  rewrite wide_rows_scalar. discriminate.
Qed.

(** C1. For every input that meets the contract and on which the byte
    offsets the kernels index are [int]s (the offset of the last blue sample
    and, when [width] is a multiple of 8, that of the last alpha sample, which
    [ssd_avx2_simple] reads), [ssd_avx2] and [ssd_avx2_simple] return exactly
    the value [ssd_scalar] returns on the same input. *)
Theorem avx2_kernels_equal_scalar a b stride width height :
  kernel_contract a b stride width height ->
  rgb_offsets_fit stride width height ->
  block_offsets_fit stride width height ->
  exists v,
    ssd_scalar a b stride width height = Some v
    /\ ssd_avx2 a b stride width height = Some v
    /\ ssd_avx2_simple a b stride width height = Some v.
Proof.
  intros Hc Hfit Hblock. pose proof (contract_in_contract _ _ _ _ _ Hc Hfit).
  exists (ssd_spec a b stride width height).
  auto using ssd_scalar_correct, ssd_avx2_correct, ssd_avx2_simple_correct.
Qed.

Lemma avx2_kernels_equal_scalar_witness :
  exists v,
    ssd_scalar frame_A frame_B 40 9 2 = Some v
    /\ ssd_avx2 frame_A frame_B 40 9 2 = Some v
    /\ ssd_avx2_simple frame_A frame_B 40 9 2 = Some v.
Proof.
  apply (avx2_kernels_equal_scalar frame_A frame_B 40 9 2);
    [valid_geometry|int_offsets|int_offsets].
Defined.

(** C1 with the contract alone: on the three rows [2^30] bytes apart there
    is no value that the three kernels return; none of them has a result
    ([wide_rows_scalar], [wide_rows_vector]). *)
Lemma avx2_kernels_equal_scalar_wide_rows :
  kernel_contract wide_A wide_B 1073741824 1 3
  /\ ~ (exists v,
          ssd_scalar wide_A wide_B 1073741824 1 3 = Some v
          /\ ssd_avx2 wide_A wide_B 1073741824 1 3 = Some v
          /\ ssd_avx2_simple wide_A wide_B 1073741824 1 3 = Some v).
Proof.
  split; [apply wide_contract; short_list|].
  intros (v & E & _). rewrite wide_rows_scalar in E. discriminate.
Qed.


(** C3. [ssd_avx2_v2] is to return the value of [ssd_scalar]; on the row of
    ten pixels [tail_A], [tail_B] (one block and two remainder pixels)
    [ssd_scalar] returns 5390 and [ssd_avx2_v2] returns 43120. *)
Theorem ssd_avx2_v2_differs_from_scalar :
  valid_input tail_A tail_B 40 10 1
  /\ ssd_scalar tail_A tail_B 40 10 1 = Some 5390
  /\ ssd_avx2_v2 tail_A tail_B 40 10 1 = Some 43120.
Proof. split; [valid_geometry|split; vm_compute; reflexivity]. Qed.

(** C5. On the 8x1 image pair of the one-lane scenario, [ssd_scalar],
    [ssd_avx2] and [ssd_avx2_simple] return 11200; [ssd_avx2_v2] returns
    89600. *)
Theorem one_lane_scenario :
  ssd_scalar lane_A lane_B 32 8 1 = Some 11200
  /\ ssd_avx2 lane_A lane_B 32 8 1 = Some 11200
  /\ ssd_avx2_simple lane_A lane_B 32 8 1 = Some 11200
  /\ ssd_avx2_v2 lane_A lane_B 32 8 1 = Some 89600.
Proof. repeat split; vm_compute; reflexivity. Qed.

(** C4. Alpha invariance: on a geometry on which the byte offset of the last
    blue sample is an [int], two runs that meet the contract and whose buffers
    agree on every byte that is not the alpha sample of a pixel return the
    same value, for [ssd_scalar] and for [ssd_avx2]. *)
Theorem alpha_invariance a a' b b' stride width height :
  kernel_contract a b stride width height ->
  rgb_offsets_fit stride width height ->
  agree_except (alpha_offset stride width height) a a' ->
  agree_except (alpha_offset stride width height) b b' ->
  (exists v, ssd_scalar a b stride width height = Some v
             /\ ssd_scalar a' b' stride width height = Some v)
  /\ (exists v, ssd_avx2 a b stride width height = Some v
                /\ ssd_avx2 a' b' stride width height = Some v).
Proof.
  intros Hc Hfit Ha Hb.
  pose proof (agree_contract _ _ _ _ _ _ _ _ Hc Ha Hb) as Hc'.
  pose proof Hc as [? ? ? ? ?].
  assert (E : ssd_spec a b stride width height
              = ssd_spec a' b' stride width height).
  { apply ssd_spec_same_rgb;
      (eapply agree_same_rgb; [eassumption| |lia]);
      intros; now apply rgb_not_alpha. }
  pose proof (contract_in_contract _ _ _ _ _ Hc Hfit) as Hv.
  pose proof (contract_in_contract _ _ _ _ _ Hc' Hfit) as Hv'.
  split; exists (ssd_spec a b stride width height); split;
    auto using ssd_scalar_correct, ssd_avx2_correct;
    rewrite E; auto using ssd_scalar_correct, ssd_avx2_correct.
Qed.

Lemma alpha_invariance_witness :
  (exists v, ssd_scalar frame_A frame_B 40 9 2 = Some v
             /\ ssd_scalar frame_A_alpha frame_B_alpha 40 9 2 = Some v)
  /\ (exists v, ssd_avx2 frame_A frame_B 40 9 2 = Some v
                /\ ssd_avx2 frame_A_alpha frame_B_alpha 40 9 2 = Some v).
Proof.
  apply (alpha_invariance frame_A frame_A_alpha frame_B frame_B_alpha 40 9 2).
  - valid_geometry.
  - int_offsets.
  - apply (agree_exceptb_sound _ (alpha_offsetb 40 9 2));
      [intros i; apply alpha_offsetb_sound; lia|vm_compute; reflexivity].
  - apply (agree_exceptb_sound _ (alpha_offsetb 40 9 2));
      [intros i; apply alpha_offsetb_sound; lia|vm_compute; reflexivity].
Defined.

(** C4 with the contract alone: on the three rows [2^30] bytes apart, the
    alpha samples of the first pixels changed, the two runs do not return a
    common value; neither has a result. *)
Lemma alpha_invariance_wide_rows :
  kernel_contract wide_A wide_B 1073741824 1 3
  /\ agree_except (alpha_offset 1073741824 1 3) wide_A wide_A_alpha
  /\ agree_except (alpha_offset 1073741824 1 3) wide_B wide_B_alpha
  /\ ~ ((exists v,
           ssd_scalar wide_A wide_B 1073741824 1 3 = Some v
           /\ ssd_scalar wide_A_alpha wide_B_alpha 1073741824 1 3 = Some v)
        /\ (exists v,
              ssd_avx2 wide_A wide_B 1073741824 1 3 = Some v
              /\ ssd_avx2 wide_A_alpha wide_B_alpha 1073741824 1 3
                 = Some v)).
Proof.
  split; [apply wide_contract; short_list|].
  split; [exact wide_alpha_A|]. split; [exact wide_alpha_B|].
  intros [(v & E & _) _]. rewrite wide_rows_scalar in E. discriminate.
Qed.

(** C9. Padding invariance: for a geometry with [stride > width * 4] on
    which the byte offset of the last blue sample is an [int], two runs that
    meet the contract and whose buffers agree on every byte whose offset
    within its row is below [width * 4] return the same value, for
    [ssd_scalar] and for [ssd_avx2]. *)
Theorem padding_invariance a a' b b' stride width height :
  kernel_contract a b stride width height ->
  rgb_offsets_fit stride width height ->
  width * 4 < stride ->
  agree_except (padding_offset stride width) a a' ->
  agree_except (padding_offset stride width) b b' ->
  (exists v, ssd_scalar a b stride width height = Some v
             /\ ssd_scalar a' b' stride width height = Some v)
  /\ (exists v, ssd_avx2 a b stride width height = Some v
                /\ ssd_avx2 a' b' stride width height = Some v).
Proof.
  intros Hc Hfit Hpad Ha Hb.
  pose proof (agree_contract _ _ _ _ _ _ _ _ Hc Ha Hb) as Hc'.
  pose proof Hc as [? ? ? ? ?].
  assert (E : ssd_spec a b stride width height
              = ssd_spec a' b' stride width height).
  { apply ssd_spec_same_rgb;
      (eapply agree_same_rgb; [eassumption| |lia]);
      intros; now apply rgb_not_padding. }
  pose proof (contract_in_contract _ _ _ _ _ Hc Hfit) as Hv.
  pose proof (contract_in_contract _ _ _ _ _ Hc' Hfit) as Hv'.
  split; exists (ssd_spec a b stride width height); split;
    auto using ssd_scalar_correct, ssd_avx2_correct;
    rewrite E; auto using ssd_scalar_correct, ssd_avx2_correct.
Qed.

Lemma padding_invariance_witness :
  (exists v, ssd_scalar frame_A frame_B 40 9 2 = Some v
             /\ ssd_scalar frame_A_padding frame_B_padding 40 9 2 = Some v)
  /\ (exists v, ssd_avx2 frame_A frame_B 40 9 2 = Some v
                /\ ssd_avx2 frame_A_padding frame_B_padding 40 9 2 = Some v).
Proof.
  apply (padding_invariance frame_A frame_A_padding frame_B frame_B_padding
           40 9 2).
  - valid_geometry.
  - int_offsets.
  - lia.
  - apply (agree_exceptb_sound _ (padding_offsetb 40 9));
      [intros i; apply padding_offsetb_sound|vm_compute; reflexivity].
  - apply (agree_exceptb_sound _ (padding_offsetb 40 9));
      [intros i; apply padding_offsetb_sound|vm_compute; reflexivity].
Defined.

(** C9 with the contract alone: on the three rows [2^30] bytes apart, the
    first padding byte of the first row changed, the two runs do not return a
    common value; neither has a result. *)
Lemma padding_invariance_wide_rows :
  kernel_contract wide_A wide_B 1073741824 1 3
  /\ 1 * 4 < 1073741824
  /\ agree_except (padding_offset 1073741824 1) wide_A wide_A_padding
  /\ agree_except (padding_offset 1073741824 1) wide_B wide_B_padding
  /\ ~ ((exists v,
           ssd_scalar wide_A wide_B 1073741824 1 3 = Some v
           /\ ssd_scalar wide_A_padding wide_B_padding 1073741824 1 3
              = Some v)
        /\ (exists v,
              ssd_avx2 wide_A wide_B 1073741824 1 3 = Some v
              /\ ssd_avx2 wide_A_padding wide_B_padding 1073741824 1 3
                 = Some v)).
Proof.
  split; [apply wide_contract; short_list|]. split; [lia|].
  split; [exact wide_padding_A|]. split; [exact wide_padding_B|].
  intros [(v & E & _) _]. rewrite wide_rows_scalar in E. discriminate.
Qed.

(** C6. Additivity under row tiling: for an input that meets the contract,
    on which the byte offset of the last blue sample is an [int], and a split
    [height = h1 + h2], the value of [ssd_scalar] on the first [h1] rows plus
    its value on the remaining [h2] rows (both buffers advanced by
    [h1 * stride] bytes) is its value on the whole image; the same holds for
    [ssd_avx2]. *)
Theorem row_tiling_additive a b stride width height h1 h2 :
  kernel_contract a b stride width height ->
  rgb_offsets_fit stride width height ->
  0 <= h1 -> 0 <= h2 -> h1 + h2 = height ->
  (exists r1 r2 r,
     ssd_scalar a b stride width h1 = Some r1
     /\ ssd_scalar (advance a (h1 * stride)) (advance b (h1 * stride))
          stride width h2 = Some r2
     /\ ssd_scalar a b stride width height = Some r
     /\ Double.add r1 r2 = r)
  /\ (exists r1 r2 r,
        ssd_avx2 a b stride width h1 = Some r1
        /\ ssd_avx2 (advance a (h1 * stride)) (advance b (h1 * stride))
             stride width h2 = Some r2
        /\ ssd_avx2 a b stride width height = Some r
        /\ Double.add r1 r2 = r).
Proof.
  intros Hc Hfit H1 H2 E.
  pose proof (contract_in_contract _ _ _ _ _ Hc Hfit) as C.
  assert (C12 : in_contract a b stride width (h1 + h2)) by now rewrite E.
  destruct (shards_in_contract _ _ _ _ _ _ C12 H1 H2) as [C1 C2].
  pose proof (ssd_spec_range _ _ _ _ _ C1) as R1.
  pose proof (ssd_spec_range _ _ _ _ _ C2) as R2.
  pose proof (ssd_spec_range _ _ _ _ _ C) as R.
  pose proof (pixels_bound _ _ _ _ _ C) as HB.
  assert (Hsum : ssd_spec a b stride width height
                 = ssd_spec a b stride width h1
                   + ssd_spec (advance a (h1 * stride))
                       (advance b (h1 * stride)) stride width h2).
  { subst height. destruct C. apply ssd_spec_rows; lia. }
  assert (Hadd : Double.add (ssd_spec a b stride width h1)
                   (ssd_spec (advance a (h1 * stride))
                      (advance b (h1 * stride)) stride width h2)
                 = ssd_spec a b stride width height).
  { unfold Double.add. rewrite <- Hsum. apply round_small. lia. }
  split;
    exists (ssd_spec a b stride width h1),
      (ssd_spec (advance a (h1 * stride)) (advance b (h1 * stride))
         stride width h2),
      (ssd_spec a b stride width height);
    auto using ssd_scalar_correct, ssd_avx2_correct.
Qed.

Lemma row_tiling_additive_witness :
  (exists r1 r2 r,
     ssd_scalar frame_A frame_B 40 9 1 = Some r1
     /\ ssd_scalar (advance frame_A (1 * 40)) (advance frame_B (1 * 40))
          40 9 1 = Some r2
     /\ ssd_scalar frame_A frame_B 40 9 2 = Some r
     /\ Double.add r1 r2 = r)
  /\ (exists r1 r2 r,
        ssd_avx2 frame_A frame_B 40 9 1 = Some r1
        /\ ssd_avx2 (advance frame_A (1 * 40)) (advance frame_B (1 * 40))
             40 9 1 = Some r2
        /\ ssd_avx2 frame_A frame_B 40 9 2 = Some r
        /\ Double.add r1 r2 = r).
Proof.
  apply (row_tiling_additive frame_A frame_B 40 9 2 1 1);
    [valid_geometry|int_offsets|lia|lia|reflexivity].
Defined.

(** C6 with the contract alone: the three rows [2^30] bytes apart, split into
    the first row and the other two.  The call on the whole image has no
    result, so no value of it is the sum of the values of the two shards. *)
Lemma row_tiling_additive_wide_rows :
  kernel_contract wide_A wide_B 1073741824 1 3
  /\ 1 + 2 = 3
  /\ ~ ((exists r1 r2 r,
           ssd_scalar wide_A wide_B 1073741824 1 1 = Some r1
           /\ ssd_scalar (advance wide_A (1 * 1073741824))
                (advance wide_B (1 * 1073741824)) 1073741824 1 2 = Some r2
           /\ ssd_scalar wide_A wide_B 1073741824 1 3 = Some r
           /\ Double.add r1 r2 = r)
        /\ (exists r1 r2 r,
              ssd_avx2 wide_A wide_B 1073741824 1 1 = Some r1
              /\ ssd_avx2 (advance wide_A (1 * 1073741824))
                   (advance wide_B (1 * 1073741824)) 1073741824 1 2 = Some r2
              /\ ssd_avx2 wide_A wide_B 1073741824 1 3 = Some r
              /\ Double.add r1 r2 = r)).
Proof.
  split; [apply wide_contract; short_list|]. split; [reflexivity|].
  intros [(r1 & r2 & r & _ & _ & E & _) _].
  rewrite wide_rows_scalar in E. discriminate.
Qed.

(** C7. Identity: on a geometry that meets the contract and on which the
    byte offsets the kernels index are [int]s (the offset of the last blue
    sample and, when [width] is a multiple of 8, that of the last alpha
    sample), each kernel called with the same buffer for both images returns
    0. *)
Theorem identity_is_zero a stride width height :
  kernel_contract a a stride width height ->
  rgb_offsets_fit stride width height ->
  block_offsets_fit stride width height ->
  ssd_scalar a a stride width height = Some 0
  /\ ssd_avx2 a a stride width height = Some 0
  /\ ssd_avx2_simple a a stride width height = Some 0
  /\ ssd_avx2_v2 a a stride width height = Some 0.
Proof.
  intros Hc Hfit Hblock. pose proof (contract_in_contract _ _ _ _ _ Hc Hfit) as C.
  assert (E : ssd_spec a a stride width height = 0).
  { destruct C. apply ssd_spec_zero; try lia. intros y x c _ _ _. reflexivity. }
  rewrite <- E at 1 2 3.
  repeat split;
    auto using ssd_scalar_correct, ssd_avx2_correct, ssd_avx2_simple_correct.
  rewrite ssd_avx2_v2_result, E by assumption. reflexivity.
Qed.

Lemma identity_is_zero_witness :
  ssd_scalar frame_A frame_A 40 9 2 = Some 0
  /\ ssd_avx2 frame_A frame_A 40 9 2 = Some 0
  /\ ssd_avx2_simple frame_A frame_A 40 9 2 = Some 0
  /\ ssd_avx2_v2 frame_A frame_A 40 9 2 = Some 0.
Proof.
  apply (identity_is_zero frame_A 40 9 2);
    [valid_geometry|int_offsets|int_offsets].
Defined.

(** C7 with the contract alone: on the three rows [2^30] bytes apart, one
    buffer for both images, the kernels do not return 0; they have no
    result. *)
Lemma identity_is_zero_wide_rows :
  kernel_contract wide_B wide_B 1073741824 1 3
  /\ ~ (ssd_scalar wide_B wide_B 1073741824 1 3 = Some 0
        /\ ssd_avx2 wide_B wide_B 1073741824 1 3 = Some 0
        /\ ssd_avx2_simple wide_B wide_B 1073741824 1 3 = Some 0
        /\ ssd_avx2_v2 wide_B wide_B 1073741824 1 3 = Some 0).
Proof.
  split; [apply wide_contract; short_list|].
  intros [E _]. rewrite wide_rows_scalar in E. discriminate.
Qed.


(** C8. Every kernel is to return a value between 0 and
    [195075 * width * height]; on one block of black against white pixels
    (8x1, bound [195075 * 8 * 1 = 1560600]) [ssd_avx2_v2] returns
    12484800. *)
Theorem ssd_avx2_v2_exceeds_bound :
  valid_input black white 32 8 1
  /\ 195075 * 8 * 1 < 2 ^ 53
  /\ ssd_scalar black white 32 8 1 = Some (195075 * 8 * 1)
  /\ ssd_avx2_v2 black white 32 8 1 = Some 12484800
  /\ 195075 * 8 * 1 < 12484800.
Proof.
  split; [valid_geometry|]. repeat split; vm_compute; reflexivity.
Qed.

(** On larger images the 32-bit lanes of [ssd_avx2_v2] wrap around: on a
    128x128 image, black against white, it returns a negative value. *)
Definition black_frame : buffer := repeat x00 (Z.to_nat 65536).
Definition white_frame : buffer := repeat xff (Z.to_nat 65536).

Lemma sum_below_const n c : sum_below n (fun _ => c) = Z.of_nat n * c.
Proof. induction n as [|n IH]; cbn [sum_below]; [|rewrite IH]; lia. Qed.

Lemma black_white_frame_sum :
  ssd_spec black_frame white_frame 512 128 128 = 3196108800.
Proof.
  unfold ssd_spec, row_ssd.
  rewrite (sum_below_ext _ _ (fun _ => 128 * 195075)).
  - rewrite sum_below_const. reflexivity.
  - intros y Hy.
    rewrite (sum_below_ext _ _ (fun _ => 195075)).
    + rewrite sum_below_const. reflexivity.
    + intros x Hx. unfold pixel_ssd, byte_at, black_frame, white_frame.
      cbv zeta. change (Z.of_nat (Z.to_nat 128)) with 128 in *.
      rewrite !nth_repeat_lt by lia. reflexivity.
Qed.

Theorem ssd_avx2_v2_negative :
  valid_input black_frame white_frame 512 128 128
  /\ ssd_avx2_v2 black_frame white_frame 512 128 128 = Some (-8790867968).
Proof.
  assert (V : valid_input black_frame white_frame 512 128 128).
  { split; unfold black_frame, white_frame, INT_MAX;
      rewrite ?repeat_length; lia. }
  split; [exact V|].
  rewrite (ssd_avx2_v2_result _ _ _ _ _ (valid_in_contract _ _ _ _ _ V)
             (valid_block_offsets _ _ _ _ _ V)).
  rewrite black_white_frame_sum. reflexivity.
Qed.

(** C10. For every input that meets the contract and on which the byte
    offset of the last blue sample is an [int], [ssd_scalar] returns 0 exactly
    when the R, G and B samples of every pixel are equal in the two images. *)
Theorem zero_iff_same_rgb a b stride width height :
  kernel_contract a b stride width height ->
  rgb_offsets_fit stride width height ->
  ssd_scalar a b stride width height = Some 0
  <-> same_rgb a b stride width height.
Proof.
  intros Hc Hfit. pose proof (contract_in_contract _ _ _ _ _ Hc Hfit) as C.
  rewrite (ssd_scalar_correct _ _ _ _ _ C).
  destruct C. rewrite <- ssd_spec_zero by lia.
  split; [now intros [= ->]|now intros ->].
Qed.

Lemma zero_iff_same_rgb_witness :
  ssd_scalar frame_A frame_A_alpha 40 9 2 = Some 0
  <-> same_rgb frame_A frame_A_alpha 40 9 2.
Proof.
  apply (zero_iff_same_rgb frame_A frame_A_alpha 40 9 2);
    [valid_geometry|int_offsets].
Defined.

(** C10 with the contract alone: on the three rows [2^30] bytes apart, two
    images that differ in an alpha sample only have the same R, G and B
    samples in every pixel, and [ssd_scalar] does not return 0. *)
Lemma zero_iff_same_rgb_wide_rows :
  kernel_contract wide_A wide_A_alpha 1073741824 1 3
  /\ ~ (ssd_scalar wide_A wide_A_alpha 1073741824 1 3 = Some 0
        <-> same_rgb wide_A wide_A_alpha 1073741824 1 3).
Proof.
  split; [apply wide_contract; short_list|].
  intros [_ H]. rewrite wide_rows_scalar in H.
  assert (None = Some 0) as [=]. apply H.
  apply (agree_same_rgb (alpha_offset 1073741824 1 3));
    [exact wide_alpha_A| |lia].
  intros y x c Hy Hx Hc. apply rgb_not_alpha; lia.
Qed.

(** * Further properties of the kernels *)

(** ** Symmetry *)

Lemma ssd_spec_sym a b stride width height :
  ssd_spec a b stride width height = ssd_spec b a stride width height.
Proof.
  unfold ssd_spec, row_ssd. apply sum_below_ext. intros y _.
  apply sum_below_ext. intros x _. unfold pixel_ssd. cbv zeta. ring.
Qed.

Lemma valid_input_sym a b stride width height :
  valid_input a b stride width height -> valid_input b a stride width height.
Proof. intros [? ? ? ? ? ?]. split; assumption. Qed.



(** ** The value of ssd_avx2_v2 *)


Lemma eightfold_fixed_point s : 0 <= s -> 8 * int32 s = s -> s = 0.
Proof.
  unfold int32, wrap.
  change (2 ^ (32 - 1)) with 2147483648. change (2 ^ 32) with 4294967296.
  intros Hs E.
  pose proof (Z.div_mod (s + 2147483648) 4294967296 ltac:(lia)).
  pose proof (Z.mod_pos_bound (s + 2147483648) 4294967296 ltac:(lia)).
  lia.
Qed.



(** ** Bounds of the kernels that return the sum *)


(** ** Only the R, G and B samples of the pixels matter *)



(** ** Tiling *)



(** An image without row padding is one long row. *)
Lemma sum_below_grid n m g :
  sum_below n
    (fun y => sum_below m (fun x => g (y * Z.of_nat m + x)))
  = sum_below (n * m) g.
Proof.
  induction n as [|n IH]; [reflexivity|].
  replace (S n * m)%nat with (n * m + m)%nat by lia.
  rewrite sum_below_app. cbn [sum_below]. rewrite IH. f_equal.
  apply sum_below_ext. intros x _. f_equal. lia.
Qed.

Lemma ssd_spec_packed a b width height :
  0 <= width -> 0 <= height ->
  ssd_spec a b (width * 4) width height
  = ssd_spec a b (width * height * 4) (width * height) 1.
Proof.
  intros Hw Hh. unfold ssd_spec, row_ssd.
  transitivity (sum_below (Z.to_nat height * Z.to_nat width)
                  (fun x => pixel_ssd a b (x * 4))).
  - rewrite <- sum_below_grid. apply sum_below_ext. intros y _.
    apply sum_below_ext. intros x _. f_equal. rewrite Z2Nat.id by lia. ring.
  - change (Z.to_nat 1) with 1%nat. cbn [sum_below].
    rewrite Z2Nat.inj_mul, Nat.mul_comm by lia. rewrite Z.add_0_l.
    apply sum_below_ext. intros x _. f_equal.
Qed.


(** Four rows of six pixels, no padding. *)
Definition packed_A : buffer := image (fun k => 3 * k * k + 5 * k + 1) 96.
Definition packed_B : buffer := image (fun k => k * k + 9 * k + 4) 96.


(** ** Empty images *)

(** X8. With no rows ([height <= 0]) every kernel returns 0 and reads neither
    buffer, whatever the other arguments. *)
Theorem no_rows_is_zero a b stride width height :
  height <= 0 ->
  ssd_scalar a b stride width height = Some 0
  /\ ssd_avx2 a b stride width height = Some 0
  /\ ssd_avx2_simple a b stride width height = Some 0
  /\ ssd_avx2_v2 a b stride width height = Some 0.
Proof.
  intros Hh.
  assert (E : (0 <? height) = false) by (apply Z.ltb_ge; lia).
  unfold ssd_scalar, ssd_avx2, ssd_avx2_simple, ssd_avx2_v2.
  cbv zeta. cbn [for_loop]. rewrite E. cbn [bind].
  repeat split; reflexivity.
Qed.

Lemma no_rows_is_zero_witness :
  ssd_scalar [] [] 40 9 0 = Some 0
  /\ ssd_avx2 [] [] 40 9 0 = Some 0
  /\ ssd_avx2_simple [] [] 40 9 0 = Some 0
  /\ ssd_avx2_v2 [] [] 40 9 0 = Some 0.
Proof. apply (no_rows_is_zero [] [] 40 9 0). lia. Defined.

Lemma idle_rows {St : Type} (row : Z -> St -> option St) (height : Z) (s : St) :
  height <= INT_MAX ->
  (forall y s, 0 <= y < height -> row y s = Some s) ->
  exists y,
    for_loop (S (Z.to_nat height)) (fun y => y <? height) 1 row 0 s
    = Some (y, s).
Proof.
  unfold INT_MAX. intros Hh Hrow.
  exists (0 + Z.of_nat (Z.to_nat height) * 1).
  rewrite (for_loop_sum (fun _ => s) row _ 1 0 0 ltac:(lia)
             (Z.to_nat height) _ (fun _ => 0) 0 0);
    unfold INT_MIN, INT_MAX; try lia.
  - reflexivity.
  - apply Z.ltb_ge. lia.
  - intros k t Hk _ _. apply Hrow. lia.
Qed.

(** X9. With no columns ([width <= 0]) every kernel returns 0 and reads neither
    buffer.  For the two kernels whose block loop tests [x <= width - 8],
    [width - 8] has to be an [int]. *)
Theorem no_columns_is_zero a b stride width height :
  height <= INT_MAX -> INT_MIN + 8 <= width <= 0 ->
  ssd_scalar a b stride width height = Some 0
  /\ ssd_avx2 a b stride width height = Some 0
  /\ ssd_avx2_simple a b stride width height = Some 0
  /\ ssd_avx2_v2 a b stride width height = Some 0.
Proof.
  intros Hh Hw. unfold INT_MIN in Hw.
  assert (E : (0 <? width) = false) by (apply Z.ltb_ge; lia).
  assert (E8 : (0 <=? int32 (width - 8)) = false).
  { rewrite int32_small by lia. apply Z.leb_gt. lia. }
  assert (Es : (0 <? int32 (int32 (width ÷ 8) * 8)) = false).
  { assert (-268435456 <= width ÷ 8 <= 0).
    { rewrite <- (Z.opp_involutive width), Z.quot_opp_l by lia.
      rewrite Z.quot_div_nonneg by lia.
      pose proof (Z.div_mod (- width) 8 ltac:(lia)).
      pose proof (Z.mod_pos_bound (- width) 8 ltac:(lia)). lia. }
    rewrite (int32_small (width ÷ 8)), int32_small by lia.
    apply Z.ltb_ge. lia. }
  unfold ssd_scalar, ssd_avx2, ssd_avx2_simple, ssd_avx2_v2, remainder_loop.
  cbv zeta.
  repeat split.
  - edestruct (idle_rows (St := Z)) as [y ->]; [exact Hh| |reflexivity].
    intros y s _. cbn [for_loop]. rewrite E. reflexivity.
  - edestruct (idle_rows (St := Z)) as [y ->]; [exact Hh| |reflexivity].
    intros y s _. cbn [for_loop]. rewrite Es. cbn [bind for_loop].
    rewrite E. reflexivity.
  - edestruct (idle_rows (St := Z)) as [y ->]; [exact Hh| |reflexivity].
    intros y s _. cbn [for_loop]. rewrite E8. cbn [bind for_loop].
    rewrite E. reflexivity.
  - edestruct (idle_rows (St := m256i)) as [y ->]; [exact Hh| |reflexivity].
    intros y s _. cbn [for_loop]. rewrite E8. cbn [bind for_loop].
    rewrite E. reflexivity.
Qed.

Lemma no_columns_is_zero_witness :
  ssd_scalar [] [] 40 0 2 = Some 0
  /\ ssd_avx2 [] [] 40 0 2 = Some 0
  /\ ssd_avx2_simple [] [] 40 0 2 = Some 0
  /\ ssd_avx2_v2 [] [] 40 0 2 = Some 0.
Proof.
  apply (no_columns_is_zero [] [] 40 0 2); unfold INT_MAX, INT_MIN; lia.
Defined.

(** ** The bytes the kernels read

    [footprint] is the number of bytes from the start of the first row to the
    end of the last pixel of the last row: the padding of the last row is not
    part of it. *)

Definition footprint (stride width height : Z) : Z :=
  (height - 1) * stride + width * 4.

(** The geometry of a valid input, without the buffers. *)
Record geometry_ok (stride width height : Z) : Prop := {
  geometry_width : 0 < width;
  geometry_height : 0 < height;
  geometry_stride : width * 4 <= stride;
  geometry_int : stride * height <= INT_MAX
}.

(** [p] and [q] hold the same bytes at the offsets below [n]. *)
Definition same_prefix (n : Z) (p q : buffer) : Prop :=
  forall j, 0 <= j < n -> load_u8 p j = load_u8 q j.

Lemma for_loop_ext {St : Type} (I : Z -> Prop) (cond : Z -> bool) (step : Z)
    (body1 body2 : Z -> St -> option St) :
  (forall v, I v -> cond v = true -> I (int32 (v + step))) ->
  (forall v s, I v -> cond v = true -> body1 v s = body2 v s) ->
  forall fuel v s, I v ->
    for_loop fuel cond step body1 v s = for_loop fuel cond step body2 v s.
Proof.
  intros Hstep Hbody. induction fuel as [|fuel IH]; intros v s Hv;
    [reflexivity|].
  cbn [for_loop]. destruct (cond v) eqn:C; [|reflexivity].
  rewrite (Hbody v s Hv C). destruct (body2 v s) as [s'|]; [|reflexivity].
  cbn [bind]. apply IH, Hstep; assumption.
Qed.

Lemma for_loop_exit {St : Type} (I : Z -> Prop) (cond : Z -> bool) (step : Z)
    (body : Z -> St -> option St) :
  (forall v, I v -> cond v = true -> I (int32 (v + step))) ->
  forall fuel v s v' s', I v ->
    for_loop fuel cond step body v s = Some (v', s') ->
    I v' /\ cond v' = false.
Proof.
  intros Hstep. induction fuel as [|fuel IH]; intros v s v' s' Hv E;
    [discriminate|].
  cbn [for_loop] in E. destruct (cond v) eqn:C.
  - destruct (body v s) as [s1|]; [|discriminate]. cbn [bind] in E.
    apply (IH _ _ _ _ (Hstep v Hv C) E).
  - injection E as <- <-. auto.
Qed.

Lemma load_bytes_prefix n p q len : forall i,
  same_prefix n p q -> 0 <= i -> i + Z.of_nat len <= n ->
  load_bytes p i len = load_bytes q i len.
Proof.
  induction len as [|len IH]; intros i H Hi Hn; [reflexivity|].
  cbn [load_bytes]. rewrite (H i) by lia. rewrite (IH (i + 1)) by (auto; lia).
  reflexivity.
Qed.

Lemma rgb_sq_diff_prefix n a a' b b' i :
  same_prefix n a a' -> same_prefix n b b' ->
  0 <= i -> i + 2 < n -> i + 2 <= INT_MAX ->
  rgb_sq_diff a b i = rgb_sq_diff a' b' i.
Proof.
  unfold INT_MAX. intros Ha Hb Hi Hn Hm. unfold rgb_sq_diff.
  rewrite !(int32_small (i + _)) by lia.
  rewrite (Ha (i + 0)), (Ha (i + 1)), (Ha (i + 2)) by lia.
  rewrite (Hb (i + 0)), (Hb (i + 1)), (Hb (i + 2)) by lia.
  reflexivity.
Qed.

Lemma ssd_avx2_block_prefix n a a' b b' i t :
  same_prefix n a a' -> same_prefix n b b' ->
  0 <= i -> i + 32 <= n ->
  ssd_avx2_block a b i t = ssd_avx2_block a' b' i t.
Proof.
  intros Ha Hb Hi Hn. unfold ssd_avx2_block, _mm256_loadu_si256.
  rewrite (load_bytes_prefix n a a'), (load_bytes_prefix n b b')
    by (auto; lia).
  reflexivity.
Qed.

Lemma ssd_avx2_simple_block_prefix n a a' b b' i t :
  same_prefix n a a' -> same_prefix n b b' ->
  0 <= i -> i + 32 <= n -> i + 31 <= INT_MAX ->
  ssd_avx2_simple_block a b i t = ssd_avx2_simple_block a' b' i t.
Proof.
  unfold INT_MAX. intros Ha Hb Hi Hn Hm.
  unfold ssd_avx2_simple_block, _mm256_loadu_si256.
  rewrite (load_bytes_prefix n a a'), (load_bytes_prefix n b b')
    by (auto; lia).
  destruct (load_bytes a' i 32) as [va|]; [|reflexivity].
  destruct (load_bytes b' i 32) as [vb|]; [|reflexivity].
  cbn [bind]. cbv zeta. cbv [fold_left]. eval_pixel_offsets.
  rewrite !(int32_small (i + _)) by lia.
  rewrite !(int32_small (i + _ + _)) by lia.
  rewrite (Ha (i + 0 + 3)), (Ha (i + 4 + 3)), (Ha (i + 8 + 3)),
    (Ha (i + 12 + 3)), (Ha (i + 16 + 3)), (Ha (i + 20 + 3)),
    (Ha (i + 24 + 3)), (Ha (i + 28 + 3)) by lia.
  rewrite (Hb (i + 0 + 3)), (Hb (i + 4 + 3)), (Hb (i + 8 + 3)),
    (Hb (i + 12 + 3)), (Hb (i + 16 + 3)), (Hb (i + 20 + 3)),
    (Hb (i + 24 + 3)), (Hb (i + 28 + 3)) by lia.
  reflexivity.
Qed.

Lemma ssd_avx2_v2_block_prefix n a a' b b' i acc :
  same_prefix n a a' -> same_prefix n b b' ->
  0 <= i -> i + 32 <= n -> i + 31 <= INT_MAX ->
  ssd_avx2_v2_block a b i acc = ssd_avx2_v2_block a' b' i acc.
Proof.
  unfold INT_MAX. intros Ha Hb Hi Hn Hm.
  unfold ssd_avx2_v2_block, _mm256_loadu_si256.
  rewrite (load_bytes_prefix n a a'), (load_bytes_prefix n b b')
    by (auto; lia).
  destruct (load_bytes a' i 32) as [va|]; [|reflexivity].
  destruct (load_bytes b' i 32) as [vb|]; [|reflexivity].
  cbn [bind]. cbv zeta. cbv [fold_left]. eval_pixel_offsets.
  rewrite !(int32_small (i + _)) by lia.
  rewrite !(int32_small (i + _ + _)) by lia.
  rewrite (Ha (i + 0 + 2)), (Ha (i + 4 + 2)), (Ha (i + 8 + 2)),
    (Ha (i + 12 + 2)), (Ha (i + 16 + 2)), (Ha (i + 20 + 2)),
    (Ha (i + 24 + 2)), (Ha (i + 28 + 2)) by lia.
  rewrite (Hb (i + 0 + 2)), (Hb (i + 4 + 2)), (Hb (i + 8 + 2)),
    (Hb (i + 12 + 2)), (Hb (i + 16 + 2)), (Hb (i + 20 + 2)),
    (Hb (i + 24 + 2)), (Hb (i + 28 + 2)) by lia.
  reflexivity.
Qed.

Section Footprint.

Variables (stride width height : Z).
Hypothesis geometry : geometry_ok stride width height.

Lemma footprint_offset y x c :
  0 <= y < height -> 0 <= x < width -> 0 <= c < 4 ->
  0 <= y * stride /\ 0 <= y * stride + x * 4 + c
  /\ y * stride + x * 4 + c + (3 - c) < footprint stride width height
  /\ footprint stride width height <= INT_MAX.
Proof.
  destruct geometry. unfold footprint, INT_MAX in *. intros Hy Hx Hc.
  assert (0 <= y * stride) by (apply Z.mul_nonneg_nonneg; lia).
  assert (y * stride <= (height - 1) * stride)
    by (apply Z.mul_le_mono_nonneg_r; lia).
  lia.
Qed.

Lemma footprint_offset_eq y x :
  0 <= y < height -> 0 <= x < width -> offset stride y x = y * stride + x * 4.
Proof.
  intros Hy Hx. unfold offset.
  pose proof (footprint_offset y x 0 Hy Hx ltac:(lia)).
  destruct geometry. unfold INT_MAX in *.
  rewrite (int32_small (y * stride)), (int32_small (x * 4)) by lia.
  apply int32_small. lia.
Qed.

Lemma rows_counter y :
  0 <= y -> (y <? height) = true -> 0 <= int32 (y + 1).
Proof.
  intros Hy C. apply Z.ltb_lt in C. destruct geometry. unfold INT_MAX in *.
  assert (1 * height <= stride * height)
    by (apply Z.mul_le_mono_nonneg_r; lia).
  rewrite int32_small; lia.
Qed.

Lemma columns_counter x :
  0 <= x -> (x <? width) = true -> 0 <= int32 (x + 1).
Proof.
  intros Hx C. apply Z.ltb_lt in C. destruct geometry. unfold INT_MAX in *.
  assert (stride * 1 <= stride * height)
    by (apply Z.mul_le_mono_nonneg_l; lia).
  rewrite int32_small; lia.
Qed.

(** The pixel loop of a row reads below [footprint - 1]. *)
Lemma pixel_loop_prefix {St : Type} (k : St -> Z -> option St)
    a a' b b' y fuel x s :
  same_prefix (footprint stride width height - 1) a a' ->
  same_prefix (footprint stride width height - 1) b b' ->
  0 <= y < height -> 0 <= x ->
  for_loop fuel (fun x => x <? width) 1
    (fun x s => d <- rgb_sq_diff a b (offset stride y x) ;; k s d) x s
  = for_loop fuel (fun x => x <? width) 1
      (fun x s => d <- rgb_sq_diff a' b' (offset stride y x) ;; k s d) x s.
Proof.
  intros Ha Hb Hy Hx.
  apply (for_loop_ext (fun x => 0 <= x)); [apply columns_counter| |exact Hx].
  intros x' s' Hx' C. apply Z.ltb_lt in C.
  rewrite footprint_offset_eq by lia.
  pose proof (footprint_offset y x' 0 Hy ltac:(lia) ltac:(lia)).
  rewrite (rgb_sq_diff_prefix (footprint stride width height - 1) a a' b b')
    by (auto; unfold INT_MAX in *; lia).
  reflexivity.
Qed.

Lemma bind_cont {A B : Type} (m : option A) (k1 k2 : A -> option B) :
  (forall x, m = Some x -> k1 x = k2 x) -> bind m k1 = bind m k2.
Proof. intros H. destruct m as [x|]; [apply H|]; reflexivity. Qed.

Lemma bind_arg {A B : Type} (m1 m2 : option A) (k : A -> option B) :
  m1 = m2 -> bind m1 k = bind m2 k.
Proof. now intros ->. Qed.

(** [ssd_scalar] reads the two buffers below [footprint - 1] only. *)
Theorem ssd_scalar_prefix a a' b b' :
  same_prefix (footprint stride width height - 1) a a' ->
  same_prefix (footprint stride width height - 1) b b' ->
  ssd_scalar a b stride width height = ssd_scalar a' b' stride width height.
Proof.
  intros Ha Hb. unfold ssd_scalar. cbv zeta. apply bind_arg.
  apply (for_loop_ext (fun y => 0 <= y)); [apply rows_counter| |lia].
  intros y s Hy C. apply Z.ltb_lt in C. apply bind_arg.
  apply (pixel_loop_prefix
           (fun s d => Some (Double.add s (Double.of_int d))));
    auto; lia.
Qed.

Lemma same_prefix_shorter n m p q :
  m <= n -> same_prefix n p q -> same_prefix m p q.
Proof. intros Hm H j Hj. apply H. lia. Qed.

(** A row of a vectorized kernel: the loop over whole blocks, which reads
    below [footprint], then the pixel loop. *)
Lemma row_prefix {St : Type} (cond : Z -> bool)
    (block1 block2 : Z -> St -> option St) (k : St -> Z -> option St)
    a a' b b' y fuel s :
  same_prefix (footprint stride width height) a a' ->
  same_prefix (footprint stride width height) b b' ->
  (forall x, 0 <= x -> x mod 8 = 0 -> cond x = true -> x + 8 <= width) ->
  (forall i s, 0 <= i -> i + 32 <= footprint stride width height ->
     i + 31 <= INT_MAX -> block1 i s = block2 i s) ->
  0 <= y < height ->
  ('(x, s) <-
     for_loop fuel cond 8 (fun x s => block1 (offset stride y x) s) 0 s ;;
   '(_, s) <-
     for_loop fuel (fun x => x <? width) 1
       (fun x s => d <- rgb_sq_diff a b (offset stride y x) ;; k s d) x s ;;
   Some s)
  = ('(x, s) <-
       for_loop fuel cond 8 (fun x s => block2 (offset stride y x) s) 0 s ;;
     '(_, s) <-
       for_loop fuel (fun x => x <? width) 1
         (fun x s => d <- rgb_sq_diff a' b' (offset stride y x) ;; k s d)
         x s ;;
     Some s).
Proof.
  intros Ha Hb Hcond Hblock Hy.
  pose proof geometry as [? ? ? ?]. unfold INT_MAX in *.
  assert (stride * 1 <= stride * height)
    by (apply Z.mul_le_mono_nonneg_l; lia).
  assert (Hstep : forall x, 0 <= x /\ x mod 8 = 0 -> cond x = true ->
                    0 <= int32 (x + 8) /\ int32 (x + 8) mod 8 = 0).
  { intros x [Hx Hm] C. pose proof (Hcond x Hx Hm C).
    rewrite int32_small by lia. split; [lia|].
    rewrite <- Z.add_mod_idemp_l, Hm by lia. reflexivity. }
  rewrite (for_loop_ext (fun x => 0 <= x /\ x mod 8 = 0) cond 8
             (fun x s => block1 (offset stride y x) s)
             (fun x s => block2 (offset stride y x) s) Hstep).
  - apply bind_cont. intros [x s1] E.
    apply (for_loop_exit (fun x => 0 <= x /\ x mod 8 = 0) _ _ _ Hstep) in E;
      [|split; [lia|reflexivity]].
    apply bind_arg.
    apply pixel_loop_prefix;
      [apply (same_prefix_shorter (footprint stride width height));
       [lia|exact Ha]
      |apply (same_prefix_shorter (footprint stride width height));
       [lia|exact Hb]
      |exact Hy|lia].
  - intros x s1 [Hx Hm] C. pose proof (Hcond x Hx Hm C).
    rewrite footprint_offset_eq by lia.
    pose proof (footprint_offset y x 0 Hy ltac:(lia) ltac:(lia)).
    pose proof (footprint_offset y (x + 7) 3 Hy ltac:(lia) ltac:(lia)).
    apply Hblock; unfold INT_MAX in *; lia.
  - split; [lia|reflexivity].
Qed.

Lemma simd_width_eq :
  int32 (int32 (width ÷ 8) * 8) = width / 8 * 8.
Proof.
  pose proof geometry as [? ? ? ?]. unfold INT_MAX in *.
  assert (stride * 1 <= stride * height)
    by (apply Z.mul_le_mono_nonneg_l; lia).
  assert (0 <= width / 8) by (apply Z.div_pos; lia).
  pose proof (Z.div_mod width 8 ltac:(lia)).
  pose proof (Z.mod_pos_bound width 8 ltac:(lia)).
  rewrite Z.quot_div_nonneg by lia.
  rewrite (int32_small (width / 8)) by lia. apply int32_small. lia.
Qed.

Lemma block_fits_lt x :
  0 <= x -> x mod 8 = 0 -> (x <? width / 8 * 8) = true -> x + 8 <= width.
Proof.
  intros Hx Hm C. apply Z.ltb_lt in C.
  pose proof (Z.div_mod width 8 ltac:(lia)).
  pose proof (Z.mod_pos_bound width 8 ltac:(lia)).
  pose proof (Z.div_mod x 8 ltac:(lia)). lia.
Qed.

Lemma block_fits_le x :
  0 <= x -> x mod 8 = 0 -> (x <=? int32 (width - 8)) = true -> x + 8 <= width.
Proof.
  intros Hx Hm C. pose proof geometry as [? ? ? ?]. unfold INT_MAX in *.
  assert (stride * 1 <= stride * height)
    by (apply Z.mul_le_mono_nonneg_l; lia).
  rewrite int32_small in C by lia. apply Z.leb_le in C. lia.
Qed.

(** The vectorized kernels read the two buffers below [footprint] only. *)
Theorem ssd_avx2_prefix a a' b b' :
  same_prefix (footprint stride width height) a a' ->
  same_prefix (footprint stride width height) b b' ->
  ssd_avx2 a b stride width height = ssd_avx2 a' b' stride width height.
Proof.
  intros Ha Hb. unfold ssd_avx2, remainder_loop. cbv zeta.
  rewrite simd_width_eq. apply bind_arg.
  apply (for_loop_ext (fun y => 0 <= y)); [apply rows_counter| |lia].
  intros y s Hy C. apply Z.ltb_lt in C.
  apply (row_prefix (fun x => x <? width / 8 * 8)
           (ssd_avx2_block a b) (ssd_avx2_block a' b')
           (fun s d => Some (int64 (s + d))));
    [exact Ha|exact Hb|exact block_fits_lt| |lia].
  intros i t Hi Hn _.
  apply (ssd_avx2_block_prefix (footprint stride width height) a a' b b');
    assumption.
Qed.

Theorem ssd_avx2_simple_prefix a a' b b' :
  same_prefix (footprint stride width height) a a' ->
  same_prefix (footprint stride width height) b b' ->
  ssd_avx2_simple a b stride width height
  = ssd_avx2_simple a' b' stride width height.
Proof.
  intros Ha Hb. unfold ssd_avx2_simple, remainder_loop. cbv zeta.
  apply bind_arg.
  apply (for_loop_ext (fun y => 0 <= y)); [apply rows_counter| |lia].
  intros y s Hy C. apply Z.ltb_lt in C.
  apply (row_prefix (fun x => x <=? int32 (width - 8))
           (ssd_avx2_simple_block a b) (ssd_avx2_simple_block a' b')
           (fun s d => Some (int64 (s + d))));
    [exact Ha|exact Hb|exact block_fits_le| |lia].
  intros i t Hi Hn Hm.
  apply (ssd_avx2_simple_block_prefix (footprint stride width height) a a' b b');
    assumption.
Qed.

Theorem ssd_avx2_v2_prefix a a' b b' :
  same_prefix (footprint stride width height) a a' ->
  same_prefix (footprint stride width height) b b' ->
  ssd_avx2_v2 a b stride width height = ssd_avx2_v2 a' b' stride width height.
Proof.
  intros Ha Hb. unfold ssd_avx2_v2. cbv zeta.
  apply bind_arg.
  apply (for_loop_ext (fun y => 0 <= y)); [apply rows_counter| |lia].
  intros y s Hy C. apply Z.ltb_lt in C.
  apply (row_prefix (fun x => x <=? int32 (width - 8))
           (ssd_avx2_v2_block a b) (ssd_avx2_v2_block a' b')
           (fun acc d =>
              Some (_mm256_add_epi32 acc (_mm256_set1_epi32 d))));
    [exact Ha|exact Hb|exact block_fits_le| |lia].
  intros i t Hi Hn Hm.
  apply (ssd_avx2_v2_block_prefix (footprint stride width height) a a' b b');
    assumption.
Qed.

(** The buffer [p] followed by enough zero bytes for a whole image. *)
Definition padded (p : buffer) : buffer :=
  p ++ repeat x00 (Z.to_nat (stride * height)).

Lemma same_prefix_padded n p :
  n <= Z.of_nat (length p) -> same_prefix n p (padded p).
Proof.
  intros Hn j Hj. unfold load_u8, padded.
  rewrite nth_error_app1 by lia. reflexivity.
Qed.

Lemma byte_at_padded p j :
  0 <= j < Z.of_nat (length p) -> byte_at (padded p) j = byte_at p j.
Proof.
  intros Hj. unfold byte_at, padded. rewrite app_nth1 by lia. reflexivity.
Qed.

Lemma padded_contract a b :
  in_contract (padded a) (padded b) stride width height.
Proof.
  destruct geometry. unfold INT_MAX in *.
  assert (stride * 1 <= stride * height)
    by (apply Z.mul_le_mono_nonneg_l; lia).
  split; unfold INT_MAX, padded; rewrite ?length_app, ?repeat_length; lia.
Qed.

Lemma geometry_block_offsets : block_offsets_fit stride width height.
Proof. destruct geometry. intros _. unfold INT_MAX in *. lia. Qed.

Lemma ssd_spec_padded a b :
  footprint stride width height - 1 <= Z.of_nat (length a) ->
  footprint stride width height - 1 <= Z.of_nat (length b) ->
  ssd_spec (padded a) (padded b) stride width height
  = ssd_spec a b stride width height.
Proof.
  intros La Lb. apply ssd_spec_same_rgb; intros y x c Hy Hx Hc;
    pose proof (footprint_offset y x c Hy Hx ltac:(lia));
    apply byte_at_padded; lia.
Qed.

Lemma scalar_on_footprint a b :
  footprint stride width height - 1 <= Z.of_nat (length a) ->
  footprint stride width height - 1 <= Z.of_nat (length b) ->
  ssd_scalar a b stride width height
  = Some (ssd_spec a b stride width height).
Proof.
  intros La Lb.
  rewrite (ssd_scalar_prefix a (padded a) b (padded b))
    by (apply same_prefix_padded; assumption).
  rewrite (ssd_scalar_correct _ _ _ _ _ (padded_contract a b)).
  now rewrite ssd_spec_padded.
Qed.

Lemma vector_on_footprint a b :
  footprint stride width height <= Z.of_nat (length a) ->
  footprint stride width height <= Z.of_nat (length b) ->
  ssd_avx2 a b stride width height
  = Some (ssd_spec a b stride width height)
  /\ ssd_avx2_simple a b stride width height
     = Some (ssd_spec a b stride width height)
  /\ ssd_avx2_v2 a b stride width height
     = Some (8 * int32 (ssd_spec a b stride width height)).
Proof.
  intros La Lb.
  rewrite (ssd_avx2_prefix a (padded a) b (padded b)),
    (ssd_avx2_simple_prefix a (padded a) b (padded b)),
    (ssd_avx2_v2_prefix a (padded a) b (padded b))
    by (apply same_prefix_padded; assumption).
  rewrite (ssd_avx2_correct _ _ _ _ _ (padded_contract a b)),
    (ssd_avx2_simple_correct _ _ _ _ _ (padded_contract a b)
       geometry_block_offsets),
    (ssd_avx2_v2_result _ _ _ _ _ (padded_contract a b)
       geometry_block_offsets).
  rewrite ssd_spec_padded by lia. auto.
Qed.

End Footprint.

Ltac geometry := split; vm_compute; (reflexivity || discriminate).
Ltac long_enough := vm_compute; discriminate.





(** ** Column tiles *)

Lemma sum_below_add n f g :
  sum_below n (fun k => f k + g k) = sum_below n f + sum_below n g.
Proof. induction n as [|n IH]; cbn [sum_below]; [|rewrite IH]; ring. Qed.

Lemma ssd_spec_columns a b stride w1 w2 height :
  0 <= stride -> 0 <= w1 -> 0 <= w2 ->
  ssd_spec a b stride (w1 + w2) height
  = ssd_spec a b stride w1 height
    + ssd_spec (advance a (w1 * 4)) (advance b (w1 * 4)) stride w2 height.
Proof.
  intros Hs H1 H2. unfold ssd_spec. rewrite <- sum_below_add.
  apply sum_below_ext. intros y Hy. unfold row_ssd.
  rewrite Z2Nat.inj_add, sum_below_app by lia. f_equal.
  apply sum_below_ext. intros x Hx. unfold pixel_ssd, advance. cbv zeta.
  assert (0 <= y * stride) by (apply Z.mul_nonneg_nonneg; lia).
  rewrite !byte_at_skipn by lia. rewrite Z2Nat.id by lia.
  replace (w1 * 4 + (y * stride + x * 4 + 0))
    with (y * stride + (w1 + x) * 4 + 0) by ring.
  replace (w1 * 4 + (y * stride + x * 4 + 1))
    with (y * stride + (w1 + x) * 4 + 1) by ring.
  replace (w1 * 4 + (y * stride + x * 4 + 2))
    with (y * stride + (w1 + x) * 4 + 2) by ring.
  reflexivity.
Qed.

Lemma column_tiling_for a b stride w1 w2 height :
  valid_input a b stride (w1 + w2) height ->
  0 < w1 -> 0 < w2 ->
  forall kernel,
    kernel = ssd_scalar \/ kernel = ssd_avx2 \/ kernel = ssd_avx2_simple ->
    exists r1 r2 r,
      kernel a b stride w1 height = Some r1
      /\ kernel (advance a (w1 * 4)) (advance b (w1 * 4)) stride w2 height
         = Some r2
      /\ kernel a b stride (w1 + w2) height = Some r
      /\ Double.add r1 r2 = r.
Proof.
  intros Hv H1 H2 kernel Hk. pose proof Hv as [? ? ? ? ? ?].
  pose proof (valid_in_contract _ _ _ _ _ Hv) as C.
  assert (G1 : geometry_ok stride w1 height) by (split; lia).
  assert (G2 : geometry_ok stride w2 height) by (split; lia).
  assert (stride * height - stride = (height - 1) * stride) by ring.
  assert (F1 : footprint stride w1 height <= Z.of_nat (length a)
               /\ footprint stride w1 height <= Z.of_nat (length b))
    by (unfold footprint; lia).
  assert (F2 : footprint stride w2 height
               <= Z.of_nat (length (advance a (w1 * 4)))
               /\ footprint stride w2 height
                  <= Z.of_nat (length (advance b (w1 * 4))))
    by (unfold footprint, advance; rewrite !length_skipn; lia).
  pose proof (ssd_spec_columns a b stride w1 w2 height
                ltac:(lia) ltac:(lia) ltac:(lia)) as Hsum.
  pose proof (ssd_spec_range _ _ _ _ _ C) as R.
  pose proof (pixels_bound _ _ _ _ _ C) as HB.
  exists (ssd_spec a b stride w1 height),
    (ssd_spec (advance a (w1 * 4)) (advance b (w1 * 4)) stride w2 height),
    (ssd_spec a b stride (w1 + w2) height).
  destruct F1 as [F1a F1b], F2 as [F2a F2b].
  destruct (vector_on_footprint stride w1 height G1 a b F1a F1b)
    as (V1 & S1 & _).
  destruct (vector_on_footprint stride w2 height G2 _ _ F2a F2b)
    as (V2 & S2 & _).
  assert (Hadd : Double.add (ssd_spec a b stride w1 height)
                   (ssd_spec (advance a (w1 * 4)) (advance b (w1 * 4))
                      stride w2 height)
                 = ssd_spec a b stride (w1 + w2) height).
  { unfold Double.add. rewrite <- Hsum. apply round_small. lia. }
  pose proof (valid_block_offsets _ _ _ _ _ Hv) as Hblock.
  destruct Hk as [-> | [-> | ->]]; repeat split;
    auto using ssd_scalar_correct, ssd_avx2_correct, ssd_avx2_simple_correct;
    apply scalar_on_footprint; auto; lia.
Qed.

(** The sum of the values of [kernel] on the two column tiles is its value
    on the whole image. *)
Definition column_tiles_add
    (kernel : buffer -> buffer -> Z -> Z -> Z -> option Z)
    (a b : buffer) (stride w1 w2 height : Z) : Prop :=
  exists r1 r2 r,
    kernel a b stride w1 height = Some r1
    /\ kernel (advance a (w1 * 4)) (advance b (w1 * 4)) stride w2 height
       = Some r2
    /\ kernel a b stride (w1 + w2) height = Some r
    /\ Double.add r1 r2 = r.



(** ** Buffers that are too short *)

Lemma load_u8_beyond p i :
  Z.of_nat (length p) <= i -> load_u8 p i = None.
Proof.
  intros H. unfold load_u8. destruct (i <? 0); [reflexivity|].
  rewrite (proj2 (nth_error_None p (Z.to_nat i))) by lia. reflexivity.
Qed.

Lemma rgb_sq_diff_beyond a b i :
  0 <= i -> i + 2 <= INT_MAX ->
  Z.of_nat (length a) <= i + 2 \/ Z.of_nat (length b) <= i + 2 ->
  rgb_sq_diff a b i = None.
Proof.
  unfold INT_MAX. intros Hi Hm H. unfold rgb_sq_diff.
  rewrite !(int32_small (i + _)) by lia.
  destruct (load_u8 a (i + 0)); [cbn [bind]|reflexivity].
  destruct (load_u8 b (i + 0)); [cbn [bind]|reflexivity].
  destruct (load_u8 a (i + 1)); [cbn [bind]|reflexivity].
  destruct (load_u8 b (i + 1)); [cbn [bind]|reflexivity].
  destruct H as [H | H].
  - rewrite (load_u8_beyond a) by lia. reflexivity.
  - destruct (load_u8 a (i + 2)); [cbn [bind]|reflexivity].
    rewrite (load_u8_beyond b) by lia. reflexivity.
Qed.

(** [ssd_scalar] does not check the sizes of the buffers: when one of them
    ends before the blue sample of the last pixel of the last row, the read of
    that sample is out of bounds. *)
Lemma ssd_scalar_too_short a b stride width height :
  geometry_ok stride width height ->
  Z.of_nat (length a) < footprint stride width height - 1
  \/ Z.of_nat (length b) < footprint stride width height - 1 ->
  ssd_scalar a b stride width height = None.
Proof.
  intros G H. pose proof G as [? ? ? ?]. unfold INT_MAX in *.
  assert (1 * height <= stride * height)
    by (apply Z.mul_le_mono_nonneg_r; lia).
  assert (stride * 1 <= stride * height)
    by (apply Z.mul_le_mono_nonneg_l; lia).
  unfold ssd_scalar. cbv zeta.
  rewrite (for_loop_stuck _ 1 _ ltac:(lia) (Z.to_nat (height - 1)));
    unfold INT_MIN, INT_MAX; try lia; [reflexivity|].
  intros s.
  rewrite (for_loop_stuck _ 1 _ ltac:(lia) (Z.to_nat (width - 1)));
    unfold INT_MIN, INT_MAX; try lia; [reflexivity|].
  intros s'.
  change (int32 (int32 ((0 + Z.of_nat (Z.to_nat (height - 1)) * 1) * stride)
                 + int32 ((0 + Z.of_nat (Z.to_nat (width - 1)) * 1) * 4)))
    with (offset stride (0 + Z.of_nat (Z.to_nat (height - 1)) * 1)
            (0 + Z.of_nat (Z.to_nat (width - 1)) * 1)).
  rewrite (footprint_offset_eq stride width height G) by lia.
  pose proof (footprint_offset stride width height G (height - 1) (width - 1)
                2 ltac:(lia) ltac:(lia) ltac:(lia)).
  rewrite rgb_sq_diff_beyond; [reflexivity| |unfold INT_MAX, footprint in *|
                               unfold footprint in *];
    rewrite ?Z2Nat.id by lia; try lia.
Qed.



Lemma load_bytes_beyond p n : forall i,
  (0 < n)%nat -> Z.of_nat (length p) < i + Z.of_nat n ->
  load_bytes p i n = None.
Proof.
  induction n as [|n IH]; intros i Hn H; [lia|].
  cbn [load_bytes].
  destruct (load_u8 p i) as [x|] eqn:E; [cbn [bind]|reflexivity].
  destruct n as [|n'].
  - rewrite load_u8_beyond in E by lia. discriminate.
  - rewrite IH by lia. reflexivity.
Qed.

Lemma loads_beyond a b i (A : Type) (k : m256i -> m256i -> option A) :
  Z.of_nat (length a) < i + 32 \/ Z.of_nat (length b) < i + 32 ->
  (va <- _mm256_loadu_si256 a i ;; vb <- _mm256_loadu_si256 b i ;; k va vb)
  = None.
Proof.
  intros H. unfold _mm256_loadu_si256. destruct H as [H | H].
  - rewrite (load_bytes_beyond a) by (try exact H; lia). reflexivity.
  - destruct (load_bytes a i 32); [cbn [bind]|reflexivity].
    rewrite (load_bytes_beyond b) by (try exact H; lia). reflexivity.
Qed.

Section WholeBlocks.

Variables (stride width height : Z).
Hypothesis geometry : geometry_ok stride width height.
Hypothesis whole_blocks : width mod 8 = 0.

Variables (a b : buffer).
Hypothesis short :
  Z.of_nat (length a) < footprint stride width height
  \/ Z.of_nat (length b) < footprint stride width height.

(** The row loop of a vectorized kernel has no result when the last block of
    the last row has none. *)
Lemma last_block_stuck {St : Type} (cond : Z -> bool)
    (block : Z -> St -> option St) (row_rest : Z -> Z * St -> option St)
    (s : St) :
  (forall x, 0 <= x <= width - 8 -> cond x = true) ->
  (forall i s, Z.of_nat (length a) < i + 32 \/ Z.of_nat (length b) < i + 32 ->
     block i s = None) ->
  for_loop (S (Z.to_nat height)) (fun y => y <? height) 1
    (fun y s =>
       r <- for_loop (S (Z.to_nat width)) cond 8
              (fun x s => block (offset stride y x) s) 0 s ;;
       row_rest y r)
    0 s
  = None.
Proof.
  intros Hcond Hblock. pose proof geometry as [? ? ? ?]. unfold INT_MAX in *.
  assert (1 * height <= stride * height)
    by (apply Z.mul_le_mono_nonneg_r; lia).
  assert (stride * 1 <= stride * height)
    by (apply Z.mul_le_mono_nonneg_l; lia).
  pose proof (Z.div_mod width 8 ltac:(lia)) as Hdm.
  rewrite whole_blocks in Hdm.
  assert (0 < width / 8) by lia.
  apply (for_loop_stuck _ 1 _ ltac:(lia) (Z.to_nat (height - 1)));
    unfold INT_MIN, INT_MAX; try lia.
  intros s'.
  rewrite (for_loop_stuck cond 8 _ ltac:(lia) (Z.to_nat (width / 8 - 1)));
    unfold INT_MIN, INT_MAX; try lia; [reflexivity| |].
  - intros k Hk. apply Hcond. lia.
  - intros s0.
    rewrite (footprint_offset_eq stride width height geometry) by lia.
    apply Hblock. unfold footprint in short.
    rewrite !Z2Nat.id by lia.
    replace (0 + (height - 1) * 1) with (height - 1) by ring.
    replace ((0 + (width / 8 - 1) * 8) * 4 + 32) with (width * 4) in * by lia.
    lia.
Qed.

Lemma vector_kernels_too_short :
  ssd_avx2 a b stride width height = None
  /\ ssd_avx2_simple a b stride width height = None
  /\ ssd_avx2_v2 a b stride width height = None.
Proof.
  pose proof geometry as [? ? ? ?]. unfold INT_MAX in *.
  assert (stride * 1 <= stride * height)
    by (apply Z.mul_le_mono_nonneg_l; lia).
  pose proof (Z.div_mod width 8 ltac:(lia)) as Hdm.
  rewrite whole_blocks in Hdm.
  unfold ssd_avx2, ssd_avx2_simple, ssd_avx2_v2. cbv zeta.
  rewrite (simd_width_eq stride width height geometry).
  rewrite (int32_small (width - 8)) by lia.
  repeat split.
  - rewrite (last_block_stuck (fun x => x <? width / 8 * 8)
               (ssd_avx2_block a b)
               (fun y r => let '(x, t) := r in
                  '(_, t) <- remainder_loop a b (int32 (y * stride)) width x t ;;
                  Some t)); [reflexivity| |].
    + intros x Hx. apply Z.ltb_lt. lia.
    + intros i s Hs. unfold ssd_avx2_block.
      now apply loads_beyond.
  - rewrite (last_block_stuck (fun x => x <=? width - 8)
               (ssd_avx2_simple_block a b)
               (fun y r => let '(x, t) := r in
                  '(_, t) <- remainder_loop a b (int32 (y * stride)) width x t ;;
                  Some t)); [reflexivity| |].
    + intros x Hx. apply Z.leb_le. lia.
    + intros i s Hs. unfold ssd_avx2_simple_block.
      now apply loads_beyond.
  - rewrite (last_block_stuck (fun x => x <=? width - 8)
               (ssd_avx2_v2_block a b)
               (fun y r => let '(x, acc) := r in
                  '(_, acc) <-
                    for_loop (S (Z.to_nat width)) (fun x => x <? width) 1
                      (fun x acc =>
                         d <- rgb_sq_diff a b
                                (int32 (int32 (y * stride) + int32 (x * 4))) ;;
                         Some (_mm256_add_epi32 acc (_mm256_set1_epi32 d)))
                      x acc ;;
                  Some acc)); [reflexivity| |].
    + intros x Hx. apply Z.leb_le. lia.
    + intros i s Hs. unfold ssd_avx2_v2_block.
      now apply loads_beyond.
Qed.

End WholeBlocks.



(** ** What the intrinsics leave in the lanes *)

(** X15. In [ssd_avx2_simple] and [ssd_avx2_v2]: after the zero extension of the
    sixteen bytes [xs], [ys] of four pixels, the 16-bit subtraction,
    [_mm256_madd_epi16] and the store, element [2p] of the array is
    [dr*dr + dg*dg] and element [2p+1] is [db*db + da*da] of pixel [p]: the
    square of the alpha difference shares a lane with that of blue. *)
Theorem madd_lanes_pattern xs ys p :
  Forall is_byte xs -> Forall is_byte ys ->
  length xs = 16%nat -> length ys = 16%nat -> 0 <= p < 4 ->
  let diff := _mm256_sub_epi16 (_mm256_cvtepu8_epi16 xs)
                (_mm256_cvtepu8_epi16 ys) in
  let arr := store_int32 (_mm256_madd_epi16 diff diff) in
  let d c := elt xs (4 * p + c) - elt ys (4 * p + c) in
  elt arr (2 * p) = d 0 * d 0 + d 1 * d 1
  /\ elt arr (2 * p + 1) = d 2 * d 2 + d 3 * d 3.
Proof.
  intros Fx Fy Lx Ly Hp. cbv zeta. rewrite sq_arr_lanes by assumption.
  do 16 (destruct xs as [|? xs]; [discriminate Lx|]).
  do 16 (destruct ys as [|? ys]; [discriminate Ly|]).
  destruct xs; [|discriminate Lx]. destruct ys; [|discriminate Ly].
  assert (p = 0 \/ p = 1 \/ p = 2 \/ p = 3) as [-> | [-> | [-> | ->]]] by lia;
    split; reflexivity.
Qed.

Lemma madd_lanes_pattern_witness :
  let xs := [200; 100; 50; 255; 1; 2; 3; 0; 9; 8; 7; 6; 0; 0; 0; 0] in
  let ys := [10; 20; 30; 0; 3; 2; 1; 255; 0; 0; 0; 0; 255; 255; 255; 255] in
  let diff := _mm256_sub_epi16 (_mm256_cvtepu8_epi16 xs)
                (_mm256_cvtepu8_epi16 ys) in
  let arr := store_int32 (_mm256_madd_epi16 diff diff) in
  let d c := elt xs (4 * 3 + c) - elt ys (4 * 3 + c) in
  elt arr (2 * 3) = d 0 * d 0 + d 1 * d 1
  /\ elt arr (2 * 3 + 1) = d 2 * d 2 + d 3 * d 3.
Proof.
  apply (madd_lanes_pattern
           [200; 100; 50; 255; 1; 2; 3; 0; 9; 8; 7; 6; 0; 0; 0; 0]
           [10; 20; 30; 0; 3; 2; 1; 255; 0; 0; 0; 0; 255; 255; 255; 255] 3);
    try reflexivity; try lia;
    repeat (apply Forall_cons; [unfold is_byte; lia|]); apply Forall_nil.
Defined.

(** ** Offsets that are not [int] values

    The kernels compute every byte offset in [int].  For arguments that are
    [int]s, a call whose largest index does not fit has no result: the bounds
    [rgb_offsets_fit] and [block_offsets_fit] are the weakest ones. *)

Lemma int32_wrapped z :
  2147483647 < z <= 6442450943 -> int32 z = z - 4294967296.
Proof.
  intros H. unfold int32, wrap.
  change (2 ^ (32 - 1)) with 2147483648. change (2 ^ 32) with 4294967296.
  replace (z + 2147483648) with (z - 2147483648 + 1 * 4294967296) by ring.
  rewrite Z.mod_add, Z.mod_small by lia. ring.
Qed.

(** An index that is negative or less than two below [INT_MAX]: the pixel
    has no defined sum. *)
Lemma rgb_sq_diff_wraps a b i :
  INT_MIN <= i <= INT_MAX -> i < 0 \/ INT_MAX < i + 2 ->
  rgb_sq_diff a b i = None.
Proof.
  unfold INT_MIN, INT_MAX. intros Hi H. unfold rgb_sq_diff.
  assert (C : i < 0 \/ i = 2147483646 \/ i = 2147483647) by lia.
  destruct C as [C | [-> | ->]].
  - rewrite (int32_small (i + 0)) by lia. unfold load_u8 at 1.
    replace (i + 0 <? 0) with true by (symmetry; apply Z.ltb_lt; lia).
    reflexivity.
  - change (int32 (2147483646 + 0)) with 2147483646.
    change (int32 (2147483646 + 1)) with 2147483647.
    change (int32 (2147483646 + 2)) with (-2147483648).
    destruct (load_u8 a 2147483646); [cbn [bind]|reflexivity].
    destruct (load_u8 b 2147483646); [cbn [bind]|reflexivity].
    destruct (load_u8 a 2147483647); [cbn [bind]|reflexivity].
    destruct (load_u8 b 2147483647); [cbn [bind]|reflexivity].
    reflexivity.
  - change (int32 (2147483647 + 0)) with 2147483647.
    change (int32 (2147483647 + 1)) with (-2147483648).
    destruct (load_u8 a 2147483647); [cbn [bind]|reflexivity].
    destruct (load_u8 b 2147483647); [cbn [bind]|reflexivity].
    reflexivity.
Qed.

(** The first pixel of a row whose blue sample lies beyond [INT_MAX], for a
    row that starts at the byte offset [R]. *)
Lemma first_wrapping_pixel R width :
  0 < width -> 0 <= R <= 4294967294 -> 2147483647 < R + width * 4 - 2 ->
  exists x0,
    0 <= x0 < width
    /\ INT_MIN <= int32 (R + x0 * 4) <= INT_MAX
    /\ (int32 (R + x0 * 4) < 0 \/ INT_MAX < int32 (R + x0 * 4) + 2).
Proof.
  unfold INT_MIN, INT_MAX. intros Hw HR Hlast.
  destruct (Z_lt_le_dec 2147483647 R) as [High | Low].
  - exists 0. rewrite int32_wrapped by lia. lia.
  - set (x0 := Z.max 0 ((2147483647 - R - 2) / 4 + 1)).
    pose proof (Z.div_mod (2147483647 - R - 2) 4 ltac:(lia)).
    pose proof (Z.mod_pos_bound (2147483647 - R - 2) 4 ltac:(lia)).
    assert (Hx0 : 0 <= x0 < width /\ 2147483645 < R + x0 * 4 <= 2147483649)
      by (unfold x0; lia).
    exists x0. split; [lia|].
    destruct (Z_lt_le_dec 2147483647 (R + x0 * 4)) as [High | Low'].
    + rewrite int32_wrapped by lia. lia.
    + rewrite int32_small by lia. lia.
Qed.

(** The first row that has such a pixel. *)
Lemma first_wrapping_row stride width height :
  0 < width -> 0 < height -> width * 4 <= stride <= INT_MAX ->
  ~ rgb_offsets_fit stride width height ->
  exists y0,
    0 <= y0 < height
    /\ y0 * stride <= 4294967294
    /\ 2147483647 < y0 * stride + width * 4 - 2.
Proof.
  unfold rgb_offsets_fit, INT_MAX. intros Hw Hh Hs Hfit.
  set (D := 2147483647 - width * 4 + 2).
  pose proof (Z.div_mod D stride ltac:(lia)) as Hdm.
  pose proof (Z.mod_pos_bound D stride ltac:(lia)) as Hmod.
  destruct (Z_le_gt_dec (D / stride + 1) 0) as [Neg | Pos].
  - exists 0. assert (stride * (D / stride) <= stride * -1)
      by (apply Z.mul_le_mono_nonneg_l; lia).
    unfold D in *. lia.
  - exists (D / stride + 1).
    assert (Hrow : D / stride + 1 < height).
    { destruct (Z_lt_le_dec (D / stride + 1) height) as [L | G]; [exact L|].
      assert (stride * (height - 1) <= stride * (D / stride))
        by (apply Z.mul_le_mono_nonneg_l; lia).
      unfold D in *. lia. }
    unfold D in *. lia.
Qed.

(** [ssd_scalar] on [int] arguments whose last blue sample lies beyond
    [INT_MAX]: no result, whatever the buffers hold. *)
Lemma ssd_scalar_wraps a b stride width height :
  0 < width -> 0 < height <= INT_MAX -> width * 4 <= stride <= INT_MAX ->
  ~ rgb_offsets_fit stride width height ->
  ssd_scalar a b stride width height = None.
Proof.
  intros Hw Hh Hs Hfit.
  destruct (first_wrapping_row stride width height Hw ltac:(lia) Hs Hfit)
    as (y0 & Hy0 & HR & Hlast).
  assert (0 <= y0 * stride) by (apply Z.mul_nonneg_nonneg; lia).
  destruct (first_wrapping_pixel (y0 * stride) width Hw ltac:(lia) Hlast)
    as (x0 & Hx0 & Hi & Hwrap).
  unfold INT_MAX in Hh, Hs.
  unfold ssd_scalar. cbv zeta.
  rewrite (for_loop_stuck _ 1 _ ltac:(lia) (Z.to_nat y0));
    unfold INT_MIN, INT_MAX; try lia; [reflexivity|].
  intros s.
  rewrite (for_loop_stuck _ 1 _ ltac:(lia) (Z.to_nat x0));
    unfold INT_MIN, INT_MAX; try lia; [reflexivity|].
  intros s'. rewrite int32_add_l, int32_add_r.
  rewrite !Z2Nat.id by lia.
  replace (0 + y0 * 1) with y0 by ring.
  replace (0 + x0 * 1) with x0 by ring.
  now rewrite rgb_sq_diff_wraps.
Qed.

(** X17. For a call that meets the contract, with [int] arguments:
    [ssd_scalar] has a result exactly when the byte offset of the last blue
    sample is an [int] value. *)
Theorem ssd_scalar_result_iff_offsets_fit a b stride width height :
  kernel_contract a b stride width height ->
  stride <= INT_MAX -> height <= INT_MAX ->
  (exists v, ssd_scalar a b stride width height = Some v)
  <-> rgb_offsets_fit stride width height.
Proof.
  intros Hc Hs Hh. pose proof Hc as [? ? ? ? ?]. split.
  - intros [v E].
    destruct (Z_le_gt_dec ((height - 1) * stride + width * 4 - 2) INT_MAX)
      as [Fit | Wrap]; [exact Fit|].
    rewrite ssd_scalar_wraps in E; try lia; [discriminate|].
    unfold rgb_offsets_fit. lia.
  - intros Hfit. eexists.
    apply ssd_scalar_correct, contract_in_contract; assumption.
Qed.

Lemma ssd_scalar_result_iff_offsets_fit_witness :
  (exists v, ssd_scalar frame_A frame_B 40 9 2 = Some v)
  <-> rgb_offsets_fit 40 9 2.
Proof.
  apply (ssd_scalar_result_iff_offsets_fit frame_A frame_B 40 9 2);
    [valid_geometry|unfold INT_MAX; lia|unfold INT_MAX; lia].
Defined.

(** [ssd_avx2_simple] on a block whose last alpha sample is the first byte
    beyond [INT_MAX]: the index [i + 7*4 + 3] of that sample wraps. *)
Lemma ssd_avx2_simple_block_wraps a b i t :
  0 <= i -> i + 31 = 2147483648 -> ssd_avx2_simple_block a b i t = None.
Proof.
  intros Hi Hend. unfold ssd_avx2_simple_block.
  destruct (_mm256_loadu_si256 a i) as [va|]; [cbn [bind]|reflexivity].
  destruct (_mm256_loadu_si256 b i) as [vb|]; [cbn [bind]|reflexivity].
  cbv zeta.
  change [0; 1; 2; 3; 4; 5; 6; 7] with ([0; 1; 2; 3; 4; 5; 6] ++ [7]).
  rewrite fold_left_app.
  match goal with
  | |- context [fold_left ?f [0; 1; 2; 3; 4; 5; 6] ?init] =>
      generalize (fold_left f [0; 1; 2; 3; 4; 5; 6] init)
  end.
  intros prev. cbn [fold_left].
  destruct prev as [pixel_sum|]; [cbn [bind]|reflexivity].
  change (int32 (7 * 4)) with 28.
  rewrite (int32_small (i + 28)) by lia.
  replace (i + 28 + 3) with 2147483648 by lia.
  reflexivity.
Qed.

Lemma ssd_avx2_simple_wraps a b stride width height :
  in_contract a b stride width height -> 0 < height ->
  width mod 8 = 0 ->
  (height - 1) * stride + width * 4 - 1 = 2147483648 ->
  ssd_avx2_simple a b stride width height = None.
Proof.
  intros C Hh H8 Hend. pose proof C as [? ? ? ? ? ? ?].
  pose proof (height_int _ _ _ _ _ C) as [? _].
  pose proof (Z.div_mod width 8 ltac:(lia)) as Hdm. rewrite H8 in Hdm.
  assert (0 <= (height - 1) * stride) by (apply Z.mul_nonneg_nonneg; lia).
  unfold INT_MAX in *.
  unfold ssd_avx2_simple. cbv zeta.
  rewrite (int32_small (width - 8)) by lia.
  rewrite (for_loop_stuck _ 1 _ ltac:(lia) (Z.to_nat (height - 1)));
    unfold INT_MIN, INT_MAX; try lia; [reflexivity|].
  intros s.
  rewrite (for_loop_stuck _ 8 _ ltac:(lia) (Z.to_nat (width / 8 - 1)));
    unfold INT_MIN, INT_MAX; try lia; [reflexivity|].
  intros s'. rewrite int32_add_l, int32_add_r.
  rewrite !Z2Nat.id by lia.
  replace ((0 + (height - 1) * 1) * stride + (0 + (width / 8 - 1) * 8) * 4)
    with ((height - 1) * stride + width * 4 - 32) by lia.
  rewrite int32_small by lia.
  apply ssd_avx2_simple_block_wraps; lia.
Qed.

(** X18. For a call that meets the contract and whose last blue sample has an
    [int] offset: [ssd_avx2_simple] has a result exactly when, [width] being
    a multiple of 8, the offset of the last alpha sample is an [int] value
    too. *)
Theorem ssd_avx2_simple_result_iff_offsets_fit a b stride width height :
  kernel_contract a b stride width height ->
  rgb_offsets_fit stride width height ->
  (exists v, ssd_avx2_simple a b stride width height = Some v)
  <-> block_offsets_fit stride width height.
Proof.
  intros Hc Hfit. pose proof (contract_in_contract _ _ _ _ _ Hc Hfit) as C.
  pose proof Hc as [? ? ? ? ?]. split.
  - intros [v E] H8.
    destruct (Z_le_gt_dec ((height - 1) * stride + width * 4 - 1) INT_MAX)
      as [Fit | Wrap]; [exact Fit|].
    rewrite (ssd_avx2_simple_wraps _ _ _ _ _ C) in E;
      [discriminate|lia|exact H8|].
    unfold rgb_offsets_fit, INT_MAX in *. lia.
  - intros Hblock. eexists. now apply ssd_avx2_simple_correct.
Qed.

Lemma ssd_avx2_simple_result_iff_offsets_fit_witness :
  (exists v, ssd_avx2_simple lane_A lane_B 32 8 1 = Some v)
  <-> block_offsets_fit 32 8 1.
Proof.
  apply (ssd_avx2_simple_result_iff_offsets_fit lane_A lane_B 32 8 1);
    [valid_geometry|int_offsets].
Defined.
